(** * QR Studio: the request coordinator of [qrcode.tsx]

    A shallow embedding of the React component [App] of [src/qrcode.tsx]:
    its two pieces of state ([config], [status]), the two event handlers
    ([handleInputChange], [generateQRCode]), the [useEffect] that revokes
    object URLs, and the rendered controls that can fire events.

    - JavaScript strings are sequences of UTF-16 code units, [list N].
    - The [config] object is a finite map from property names to values:
      [{...prev, [name]: v}] is map insertion.
    - Numbers are the values [parseInt] can return: NaN, an infinity, or an
      integer-valued double; the rounding of an integer to the nearest
      double is written out.
    - Handlers run in a small state monad over the [World]: the component
      state, the cleanup registered by the effect, the requests in flight,
      the object URLs handed out by the browser, and a chronological log of
      the calls made to the outside.
    - An async handler is cut at its [await]: [generateQRCode] runs up to
      the [fetch], [generateQRCode_resume] from the moment it settles.
    - After every event React renders and runs the effects, so a handler
      always closes over the current [config] and [status]. *)

From Stdlib Require Import ZArith NArith Ascii String DecimalString DecimalPos DecimalZ.
From stdpp Require Import base decidable option list gmap fin_maps.

Abbreviation jsstring := (list N).

(** ** Strings *)

Module Str.

(** A source literal (ASCII) as code units. *)
Definition lit (s : string) : jsstring :=
  map N_of_ascii (list_ascii_of_string s).

(** ECMAScript WhiteSpace and LineTerminator code points: what
    [String.prototype.trim] strips and what [parseInt] skips. *)
Definition isWhiteSpace (c : N) : bool :=
  ((9 <=? c) && (c <=? 13) ||            (* TAB LF VT FF CR *)
   (c =? 32) || (c =? 160) ||           (* SP, NBSP *)
   (c =? 5760) ||                       (* U+1680 *)
   (8192 <=? c) && (c <=? 8202) ||      (* U+2000 .. U+200A *)
   (c =? 8232) || (c =? 8233) ||        (* U+2028, U+2029 *)
   (c =? 8239) || (c =? 8287) ||        (* U+202F, U+205F *)
   (c =? 12288) || (c =? 65279))%N.     (* U+3000, U+FEFF *)

Fixpoint dropWhile (p : N -> bool) (s : jsstring) : jsstring :=
  match s with
  | [] => []
  | c :: s' => if p c then dropWhile p s' else s
  end.

Fixpoint takeWhile (p : N -> bool) (s : jsstring) : jsstring :=
  match s with
  | [] => []
  | c :: s' => if p c then c :: takeWhile p s' else []
  end.

Definition trimStart (s : jsstring) : jsstring := dropWhile isWhiteSpace s.
Definition trimEnd (s : jsstring) : jsstring := rev (dropWhile isWhiteSpace (rev s)).

(** [s.trim()] *)
Definition trim (s : jsstring) : jsstring := trimEnd (trimStart s).

(** Truthiness of a string: [!s] is true exactly for the empty string. *)
Definition truthy (s : jsstring) : bool :=
  match s with [] => false | _ :: _ => true end.

End Str.

(** ** Numbers *)

Module Num.

(** The Number values that occur in this program. [Finite z] is the
    double whose value is the integer [z]; the sign of zero is not kept
    (nothing in the component distinguishes -0 from +0). *)
Inductive number : Type :=
| NaN
| Infinity (negative : bool)
| Finite (z : Z).

#[global] Instance number_eq_dec : EqDecision number.
Proof. solve_decision. Defined.

Definition isNaN (n : number) : bool :=
  match n with NaN => true | _ => false end.

(** Round a natural number to 53 significant bits, ties to even. *)
Definition roundSignificand (m : Z) : Z :=
  if (m <? 2 ^ 53)%Z then m
  else
    let e := (Z.log2 m - 52)%Z in
    let q := Z.shiftr m e in
    let r := Z.land m (Z.ones e) in
    let half := (2 ^ (e - 1))%Z in
    let q' := if (half <? r)%Z || ((r =? half)%Z && Z.odd q)
              then (q + 1)%Z else q in
    Z.shiftl q' e.

(** The Number value for a mathematical integer: the nearest double,
    overflowing to an infinity from 2^1024 on. *)
Definition ofInteger (z : Z) : number :=
  let m := roundSignificand (Z.abs z) in
  if (2 ^ 1024 <=? m)%Z then Infinity (z <? 0)%Z
  else Finite (Z.sgn z * m).

Definition isDigit (c : N) : bool := ((48 <=? c) && (c <=? 57))%N.

(** Value of a run of decimal digits, most significant first. *)
Fixpoint digitsValue (acc : Z) (ds : jsstring) : Z :=
  match ds with
  | [] => acc
  | c :: ds' => digitsValue (10 * acc + (Z.of_N c - 48)) ds'
  end.

(** [parseInt(input, 10)]: skip leading white space, take an optional
    sign, then the longest run of decimal digits; NaN when that run is
    empty. Whatever follows the digits is ignored. The digits are read
    exactly (ECMAScript lets an engine replace the digits after the 20th
    by zeros; the engines in use do not). *)
Definition parseInt (input : jsstring) : number :=
  let s := Str.trimStart input in
  let '(negative, s) :=
    match s with
    | c :: rest =>
        if (c =? 45)%N then (true, rest)          (* "-" *)
        else if (c =? 43)%N then (false, rest)    (* "+" *)
        else (false, s)
    | [] => (false, [])
    end in
  match Str.takeWhile isDigit s with
  | [] => NaN
  | ds =>
      let mathInt := digitsValue 0 ds in
      ofInteger (if negative then - mathInt else mathInt)
  end.

(** A string with no digit after its leading white space and sign is not
    a number for [parseInt]. *)
Definition nonNumeric (s : jsstring) : Prop :=
  match Str.trimStart s with
  | [] => True
  | c :: rest =>
      let body := if ((c =? 45) || (c =? 43))%N then rest else c :: rest in
      match body with
      | [] => True
      | d :: _ => isDigit d = false
      end
  end.

(** The decimal numeral of an integer, as a user would type it. *)
Definition decimal (z : Z) : jsstring :=
  Str.lit (NilEmpty.string_of_int (Z.to_int z)).

End Num.

Import Str Num.

(** ** The component's data *)

(** A property value of [config]: a string (the empty string doubles as the
    sentinel of the numeric fields, [number | ""]) or a number. *)
Inductive value : Type :=
| VString (s : jsstring)
| VNumber (n : number).

#[global] Instance value_eq_dec : EqDecision value.
Proof. solve_decision. Defined.

(** [interface QRConfig], as the object it is at run time. *)
Abbreviation QRConfig := (gmap jsstring value).

(** The empty sentinel [""] of a numeric field. *)
Definition emptySentinel : value := VString [].

(** Object URLs are fresh, non-empty (hence truthy) strings handed out by
    the browser; they are represented by their serial number. *)
Abbreviation ObjectURL := nat.

(** [interface AppStatus] *)
Record AppStatus : Type := mkStatus {
  loading : bool;
  qrUrl : option ObjectURL;
  error : option jsstring;
}.

#[global] Instance AppStatus_eq_dec : EqDecision AppStatus.
Proof. solve_decision. Defined.

(** [useState<QRConfig>({...})] *)
Definition initialConfig : QRConfig :=
  <[lit "text" := VString (lit "https://example.com")]>
  (<[lit "size" := VNumber (Finite 300)]>
  (<[lit "color" := VString (lit "#000000")]>
  (<[lit "background" := VString (lit "#ffffff")]>
  (<[lit "margin" := VNumber (Finite 4)]> ∅)))).

(** [useState<AppStatus>({ loading: false, qrUrl: null, error: null })] *)
Definition initialStatus : AppStatus :=
  {| loading := false; qrUrl := None; error := None |}.

(** ** JSON and the outbound request *)

(** The JSON value of a member of the body. The body itself is a JSON
    object, an unordered collection of members, hence a finite map. *)
Inductive json : Type :=
| JNull
| JNumber (z : Z)
| JString (s : jsstring).

#[global] Instance json_eq_dec : EqDecision json.
Proof. solve_decision. Defined.

(** How [JSON.stringify] serialises a property value: strings as JSON
    strings, finite numbers as JSON numbers, NaN and the infinities as
    [null]. *)
Definition serializeProperty (v : value) : json :=
  match v with
  | VString s => JString s
  | VNumber (Finite z) => JNumber z
  | VNumber _ => JNull
  end.

(** [JSON.stringify(config)] for an object of strings and numbers. *)
Definition JSON_stringify (o : QRConfig) : gmap jsstring json :=
  serializeProperty <$> o.

Record Request : Type := mkRequest {
  url : jsstring;
  method : jsstring;
  headers : list (jsstring * jsstring);
  body : gmap jsstring json;
}.

#[global] Instance Request_eq_dec : EqDecision Request.
Proof. solve_decision. Defined.

(** What a [catch] clause can receive. *)
Inductive Thrown : Type :=
| ErrorObject (message : jsstring)   (* err instanceof Error *)
| NotAnError.                        (* any other thrown value *)

(** The bytes of a response body. *)
Abbreviation Blob := (list Byte.byte).

(** How the request of one submit ends: [fetch] rejects, or a response
    arrives with its [ok] flag and then [response.blob()] settles. *)
Inductive Outcome : Type :=
| FetchRejected (t : Thrown)
| Responded (ok : bool) (blob : Thrown + Blob).

(** ** The world the handlers act on *)

(** Calls to the outside, in the order they are made. *)
Inductive Action : Type :=
| StatusSet (s : AppStatus)        (* setStatus, as applied *)
| Fetched (r : Request)            (* fetch(...) *)
| Created (u : ObjectURL)          (* URL.createObjectURL *)
| Revoked (u : ObjectURL).         (* URL.revokeObjectURL *)

#[global] Instance Action_eq_dec : EqDecision Action.
Proof. solve_decision. Defined.

Record World : Type := mkWorld {
  config : QRConfig;
  status : AppStatus;
  mounted : bool;
  (** the [status.qrUrl] captured by the cleanup of the last effect run *)
  effectUrl : option ObjectURL;
  (** requests whose promise has not settled yet *)
  inFlight : nat;
  (** serial number of the next object URL *)
  nextUrl : nat;
  log : list Action;
}.

(** ** Handlers as state transformers *)

Definition App (A : Type) : Type := World -> A * World.

Definition ret {A} (a : A) : App A := fun w => (a, w).
Definition bind {A B} (m : App A) (k : A -> App B) : App B :=
  fun w => let '(a, w') := m w in k a w'.

Declare Scope app_scope.
Delimit Scope app_scope with app.
Notation "x <- m ;; k" := (bind m (fun x => k))
  (at level 100, m at next level, right associativity) : app_scope.
Notation "m ;; k" := (bind m (fun _ => k))
  (at level 100, right associativity) : app_scope.
Open Scope app_scope.

Definition exec {A} (m : App A) (w : World) : World := snd (m w).

Definition record (a : Action) (w : World) : World :=
  mkWorld (config w) (status w) (mounted w) (effectUrl w) (inFlight w)
          (nextUrl w) (log w ++ [a]).

(** [setConfig(updater)]; a state update of an unmounted component is
    dropped. *)
Definition setConfig (f : QRConfig -> QRConfig) : App unit := fun w =>
  if mounted w
  then (tt, mkWorld (f (config w)) (status w) (mounted w) (effectUrl w)
                    (inFlight w) (nextUrl w) (log w))
  else (tt, w).

(** [setStatus(updater)] *)
Definition setStatus (f : AppStatus -> AppStatus) : App unit := fun w =>
  if mounted w
  then let s := f (status w) in
       (tt, record (StatusSet s)
              (mkWorld (config w) s (mounted w) (effectUrl w)
                       (inFlight w) (nextUrl w) (log w)))
  else (tt, w).

(** [fetch(url, init)]: the request leaves and stays in flight until its
    promise settles. *)
Definition fetch (r : Request) : App unit := fun w =>
  (tt, record (Fetched r)
         (mkWorld (config w) (status w) (mounted w) (effectUrl w)
                  (S (inFlight w)) (nextUrl w) (log w))).

(** [URL.createObjectURL(blob)] *)
Definition createObjectURL (b : Blob) : App ObjectURL := fun w =>
  (nextUrl w,
   record (Created (nextUrl w))
     (mkWorld (config w) (status w) (mounted w) (effectUrl w)
              (inFlight w) (S (nextUrl w)) (log w))).

(** [URL.revokeObjectURL(url)] *)
Definition revokeObjectURL (u : ObjectURL) : App unit := fun w =>
  (tt, record (Revoked u) w).

(** The target of a change event: [const { name, value, type } = e.target]. *)
Record Target : Type := mkTarget {
  target_name : jsstring;
  target_value : jsstring;
  target_type : jsstring;
}.

(** [handleInputChange] *)
Definition handleInputChange (e : Target) : App unit :=
  let name := target_name e in
  let value := target_value e in
  let type := target_type e in
  if decide (type = lit "number") then
    if decide (value = []) then
      setConfig (fun prev => <[name := emptySentinel]> prev)
    else
      let num := parseInt value in
      if negb (isNaN num)
      then setConfig (fun prev => <[name := VNumber num]> prev)
      else ret tt
  else
    setConfig (fun prev => <[name := VString value]> prev).

Definition validationMessage : jsstring := lit "Please enter some content first.".
Definition serverMessage : jsstring := lit "Server error. Is the Python backend running?".
Definition fallbackMessage : jsstring := lit "Something went wrong.".

(** The request built by [generateQRCode]. *)
Definition qrRequest (cfg : QRConfig) : Request :=
  {| url := lit "/api/qrcode";
     method := lit "POST";
     headers := [(lit "Content-Type", lit "application/json")];
     body := JSON_stringify cfg |}.

(** [generateQRCode] up to its first [await]. [config.text.trim()] throws a
    TypeError when [text] is not a string; the promise of the async function
    is then rejected and nothing else happens. *)
Definition generateQRCode : App unit := fun w =>
  match config w !! lit "text" with
  | Some (VString text) =>
      if negb (truthy (trim text)) then
        setStatus (fun prev =>
          {| loading := loading prev; qrUrl := qrUrl prev;
             error := Some validationMessage |}) w
      else
        (setStatus (fun _ => {| loading := true; error := None; qrUrl := None |}) ;;
         fetch (qrRequest (config w))) w
  | _ => (tt, w)
  end.

(** The body of the [try] after [fetch] has settled: either the blob to
    show, or the value that reaches the [catch]. *)
Definition tryBody (o : Outcome) : Thrown + Blob :=
  match o with
  | FetchRejected t => inl t
  | Responded false _ => inl (ErrorObject serverMessage)
  | Responded true b => b
  end.

(** [err instanceof Error ? err.message : "Something went wrong."] *)
Definition errorMessage (err : Thrown) : jsstring :=
  match err with
  | ErrorObject message => message
  | NotAnError => fallbackMessage
  end.

(** [generateQRCode] from the settling of [fetch] to its end. Nothing the
    component can observe happens between the two [await]s, so they are
    resumed in one step. *)
Definition generateQRCode_resume (o : Outcome) : App unit :=
  match tryBody o with
  | inr imageBlob =>
      u <- createObjectURL imageBlob ;;
      setStatus (fun _ => {| loading := false; qrUrl := Some u; error := None |})
  | inl err =>
      setStatus (fun _ =>
        {| loading := false; qrUrl := None; error := Some (errorMessage err) |})
  end.

(** ** The effect and the rendered controls *)

(** The cleanup returned by the effect:
    [if (status.qrUrl) URL.revokeObjectURL(status.qrUrl)], with [status]
    the one of the render in which the effect ran. *)
Definition effectCleanup (captured : option ObjectURL) : App unit :=
  match captured with
  | Some u => revokeObjectURL u
  | None => ret tt
  end.

Definition setEffectUrl (u : option ObjectURL) : App unit := fun w =>
  (tt, mkWorld (config w) (status w) (mounted w) u (inFlight w)
               (nextUrl w) (log w)).

(** [useEffect(..., [status.qrUrl])] after a render: when the dependency
    differs from the one of the last run, the old cleanup runs and the
    effect runs again, capturing the new [status.qrUrl]. *)
Definition runEffects : App unit := fun w =>
  if mounted w then
    if decide (qrUrl (status w) = effectUrl w) then (tt, w)
    else (effectCleanup (effectUrl w) ;; setEffectUrl (qrUrl (status w))) w
  else (tt, w).

(** What the cleanup of the effect releases when the dependency goes from
    [old] to [new]. *)
Definition released (old new : option ObjectURL) : list Action :=
  if decide (new = old) then []
  else match old with Some u => [Revoked u] | None => [] end.

(** Unmounting runs the last cleanup. *)
Definition unmount : App unit := fun w =>
  (effectCleanup (effectUrl w) ;;
   (fun w' => (tt, mkWorld (config w') (status w') false (effectUrl w')
                          (inFlight w') (nextUrl w') (log w')))) w.

(** The controls inside the form that carry [onChange={handleInputChange}]. *)
Inductive Control : Type :=
| Content       (* <textarea name="text"> *)
| Size          (* <input name="size" type="number"> *)
| Margin        (* <input name="margin" type="number"> *)
| Foreground    (* <input name="color" type="color"> *)
| Background.   (* <input name="background" type="color"> *)

Definition control_name (c : Control) : jsstring :=
  match c with
  | Content => lit "text"
  | Size => lit "size"
  | Margin => lit "margin"
  | Foreground => lit "color"
  | Background => lit "background"
  end.

Definition control_type (c : Control) : jsstring :=
  match c with
  | Content => lit "textarea"
  | Size | Margin => lit "number"
  | Foreground | Background => lit "color"
  end.

Definition changeOf (c : Control) (v : jsstring) : Target :=
  {| target_name := control_name c; target_value := v;
     target_type := control_type c |}.

(** What can happen to a mounted component. *)
Inductive Event : Type :=
| Change (c : Control) (v : jsstring)   (* the user edits a control *)
| Submit                                (* the form is submitted *)
| Settle (o : Outcome)                  (* a request in flight settles *)
| Unmount.

(** The submit button is rendered with [disabled={status.loading}], and it
    is the only way to submit the form. *)
Definition submitDisabled (w : World) : bool := loading (status w).

Definition enabled (e : Event) (w : World) : bool :=
  match e with
  | Change _ _ => mounted w
  | Submit => mounted w && negb (submitDisabled w)
  | Settle _ => bool_decide (0 < inFlight w)
  | Unmount => mounted w
  end.

Definition settled : App unit := fun w =>
  (tt, mkWorld (config w) (status w) (mounted w) (effectUrl w)
               (pred (inFlight w)) (nextUrl w) (log w)).

Definition dispatch (e : Event) : App unit :=
  match e with
  | Change c v => handleInputChange (changeOf c v)
  | Submit => generateQRCode
  | Settle o => settled ;; generateQRCode_resume o
  | Unmount => unmount
  end.

(** One event: the handler runs, then React renders and runs the effects. *)
Definition step (e : Event) (w : World) : World :=
  exec (dispatch e ;; runEffects) w.

Definition initialWorld : World :=
  {| config := initialConfig; status := initialStatus; mounted := true;
     effectUrl := None; inFlight := 0; nextUrl := 0; log := [] |}.

Fixpoint run (es : list Event) (w : World) : option World :=
  match es with
  | [] => Some w
  | e :: es' => if enabled e w then run es' (step e w) else None
  end.

(** The states the component can be in. *)
Definition reachable (w : World) : Prop :=
  exists es, run es initialWorld = Some w.

(** How many times an object URL has been revoked. *)
Fixpoint countRevoked (u : ObjectURL) (l : list Action) : nat :=
  match l with
  | [] => 0
  | Revoked u' :: l' => (if decide (u' = u) then 1 else 0) + countRevoked u l'
  | _ :: l' => countRevoked u l'
  end.

Definition revocations (u : ObjectURL) (w : World) : nat :=
  countRevoked u (log w).

(** The requests sent so far, oldest first. *)
Fixpoint fetchedIn (l : list Action) : list Request :=
  match l with
  | [] => []
  | Fetched r :: l' => r :: fetchedIn l'
  | _ :: l' => fetchedIn l'
  end.

Definition requests (w : World) : list Request := fetchedIn (log w).

(** ** Invariants of the reachable states *)

(** The cleanup registered by the effect holds the URL on display. *)
Definition effectSynced (w : World) : Prop :=
  mounted w = true -> effectUrl w = qrUrl (status w).

(** At most one request is in flight, and the mounted component is loading
    exactly while one is. *)
Definition singleFlight (w : World) : Prop :=
  inFlight w <= 1 /\
  (mounted w = true -> (loading (status w) = true <-> inFlight w = 1)) /\
  (mounted w = true -> loading (status w) = true -> qrUrl (status w) = None).

(** Every object URL created so far is accounted for: never revoked twice,
    and while the component is mounted the only one not yet revoked is the
    one on display. [lg] is the log, [nx] the next serial number, [q] the
    URL in [status.qrUrl] and [m] whether the component is mounted. *)
Definition accounted (lg : list Action) (nx : nat) (q : option ObjectURL)
    (m : bool) : Prop :=
  (forall u, Created u ∈ lg <-> u < nx) /\
  (forall u, nx <= u -> countRevoked u lg = 0) /\
  (forall u, countRevoked u lg <= 1) /\
  (forall u, q = Some u -> u < nx) /\
  (m = true -> forall u, u < nx ->
     countRevoked u lg = if decide (q = Some u) then 0 else 1).

Definition urlsAccounted (w : World) : Prop :=
  effectSynced w /\
  accounted (log w) (nextUrl w) (qrUrl (status w)) (mounted w).

(** Log entries that neither create nor revoke an object URL. *)
Definition inert (l : list Action) : Prop :=
  forall a, a ∈ l -> match a with Created _ | Revoked _ => False | _ => True end.

(** The property names of [QRConfig]. *)
Definition configKeys : gset jsstring :=
  {[ lit "text"; lit "size"; lit "color"; lit "background"; lit "margin" ]}.

Definition isString (v : option value) : Prop := exists s, v = Some (VString s).

(** [number | ""]: the empty sentinel or a number that is not NaN. *)
Definition isNumberOrEmpty (v : option value) : Prop :=
  v = Some emptySentinel \/ exists n, v = Some (VNumber n) /\ n <> NaN.

(** The object has the shape of [interface QRConfig]. *)
Definition wellTyped (cfg : QRConfig) : Prop :=
  dom cfg = configKeys /\
  isString (cfg !! lit "text") /\
  isNumberOrEmpty (cfg !! lit "size") /\
  isString (cfg !! lit "color") /\
  isString (cfg !! lit "background") /\
  isNumberOrEmpty (cfg !! lit "margin").

Definition configTyped (w : World) : Prop :=
  wellTyped (config w) /\
  forall r, r ∈ requests w -> exists cfg, wellTyped cfg /\ r = qrRequest cfg.

(** ** The request contract *)





(** ** What the component renders *)

(** The preview pane: the generated image with its download link, or the
    note "Ready for generation". *)
Inductive Preview : Type :=
| QRImage (src : ObjectURL)                 (* <img src={status.qrUrl}> *)
          (backgroundColor : option value)  (* style: config.background *)
          (href : ObjectURL)                (* <a href={status.qrUrl}> *)
          (download : jsstring)             (* download="qrcode.png" *)
| ReadyNote.

(** The parts of the returned JSX that depend on the state. The [value]
    props are the properties of [config] as they are ([None] for a missing
    property). *)
Record View : Type := mkView {
  textValue : option value;
  sizeValue : option value;
  marginValue : option value;
  colorValue : option value;
  backgroundValue : option value;
  buttonDisabled : bool;
  buttonLabel : jsstring;
  (** [{status.error && <p>{status.error}</p>}] *)
  errorNote : option jsstring;
  preview : Preview;
}.

(** The [return (...)] of [App]. *)
Definition render (cfg : QRConfig) (st : AppStatus) : View :=
  {| textValue := cfg !! lit "text";
     sizeValue := cfg !! lit "size";
     marginValue := cfg !! lit "margin";
     colorValue := cfg !! lit "color";
     backgroundValue := cfg !! lit "background";
     buttonDisabled := loading st;
     buttonLabel := if loading st then lit "Generating..."
                    else lit "Generate QR Code";
     errorNote := match error st with
                  | Some message => if truthy message then Some message else None
                  | None => None
                  end;
     preview := match qrUrl st with
                | Some u => QRImage u (cfg !! lit "background") u (lit "qrcode.png")
                | None => ReadyNote
                end |}.

Definition view (w : World) : View := render (config w) (status w).

(** The [value] prop of a control. *)
Definition valueOf (c : Control) (v : View) : option value :=
  match c with
  | Content => textValue v
  | Size => sizeValue v
  | Margin => marginValue v
  | Foreground => colorValue v
  | Background => backgroundValue v
  end.

(** The four states of the status: idle or failed (no handle), pending,
    succeeded; a handle and an error are held together only when the error
    is the validation message. *)
Definition statusShape (s : AppStatus) : Prop :=
  (loading s = true -> qrUrl s = None /\ error s = None) /\
  (forall u message, qrUrl s = Some u -> error s = Some message ->
     message = validationMessage).

(** What an edit of control [c] with the raw string [v] stores, if it
    stores anything: the net effect of [handleInputChange] on the property
    of that control. *)
Definition coercion (c : Control) (v : jsstring) : option value :=
  match c with
  | Size | Margin =>
      if decide (v = []) then Some emptySentinel
      else match parseInt v with
           | NaN => None
           | n => Some (VNumber n)
           end
  | _ => Some (VString v)
  end.

(** ** What a number input hands to the handler *)

(** The parts of a valid floating-point number of the HTML Standard: an
    optional "-", digits before and after an optional ".", and an optional
    exponent. Its value is the digits, read as one integer, times ten to
    the exponent less the number of fraction digits. *)
Record Numeral : Type := mkNumeral {
  negativeSign : bool;
  integerDigits : jsstring;
  fractionDigits : jsstring;
  exponent : Z;
}.

Definition nonEmpty (s : jsstring) : bool :=
  match s with [] => false | _ :: _ => true end.

(** Read a string against that grammar: an optional "-"; one or both of a
    run of digits and a "." followed by a run of digits; then optionally
    "e" or "E", an optional sign and a run of digits; nothing else. *)
Definition readNumeral (s : jsstring) : option Numeral :=
  let '(negative, s) :=
    match s with
    | c :: rest => if (c =? 45)%N then (true, rest) else (false, s)
    | [] => (false, [])
    end in
  let integer := takeWhile isDigit s in
  let s := dropWhile isDigit s in
  let '(fraction, s, pointOk) :=
    match s with
    | c :: rest =>
        if (c =? 46)%N                                     (* "." *)
        then (takeWhile isDigit rest, dropWhile isDigit rest,
              nonEmpty (takeWhile isDigit rest))
        else ([], s, true)
    | [] => ([], [], true)
    end in
  if pointOk && (nonEmpty integer || nonEmpty fraction) then
    match s with
    | [] => Some (mkNumeral negative integer fraction 0)
    | c :: rest =>
        if ((c =? 101) || (c =? 69))%N then                (* "e", "E" *)
          let '(down, rest) :=
            match rest with
            | d :: rest' =>
                if (d =? 45)%N then (true, rest')
                else if (d =? 43)%N then (false, rest')
                else (false, rest)
            | [] => (false, [])
            end in
          let digits := takeWhile isDigit rest in
          if nonEmpty digits && negb (nonEmpty (dropWhile isDigit rest)) then
            let e := digitsValue 0 digits in
            Some (mkNumeral negative integer fraction (if down then - e else e))
          else None
        else None
    end
  else None.

(** Magnitudes below 2^1024 - 2^970 round to a finite double; from there
    on they round to an infinity. *)
Definition numeralIsFinite (n : Numeral) : bool :=
  let m := digitsValue 0 (integerDigits n ++ fractionDigits n) in
  let e := (exponent n - Z.of_nat (length (fractionDigits n)))%Z in
  let limit := (2 ^ 1024 - 2 ^ 970)%Z in
  if (0 <=? e)%Z then (m * 10 ^ e <? limit)%Z
  else (m <? limit * 10 ^ (- e))%Z.

(** The [value] of an [<input type="number">] as the browser sanitises
    it: the empty string, or a valid floating-point number whose value is
    a finite double, kept as typed. Anything else is replaced by the empty
    string before the handler sees it. *)
Definition numberInputDelivers (v : jsstring) : bool :=
  match v with
  | [] => true
  | _ => match readNumeral v with
         | Some n => numeralIsFinite n
         | None => false
         end
  end.

(** * Properties *)

(** ** Strings and numbers *)

Section StringFacts.

Lemma dropWhile_nil_iff p (s : jsstring) :
  dropWhile p s = [] <-> Forall (fun c => p c = true) s.
Proof.
  induction s as [|c s IH]; simpl.
  - split; auto.
  - destruct (p c) eqn:E.
    + rewrite IH. split; [by constructor | by inversion 1].
    + split; [discriminate | inversion 1; congruence].
Qed.

Lemma dropWhile_head p (s : jsstring) c l :
  dropWhile p s = c :: l -> p c = false.
Proof.
  induction s as [|a s IH]; simpl; [discriminate|].
  destruct (p a) eqn:E; [exact IH|]. by intros [= <- _].
Qed.

(** The strings that trim to nothing are the empty string and the
    strings made of white space only. *)
Lemma trim_nil_iff (s : jsstring) :
  trim s = [] <-> Forall (fun c => isWhiteSpace c = true) s.
Proof.
  unfold trim, trimEnd, trimStart. split.
  - intros H. apply (f_equal (@rev N)) in H. rewrite rev_involutive in H.
    simpl in H. apply dropWhile_nil_iff, Forall_rev in H.
    rewrite rev_involutive in H.
    destruct (dropWhile isWhiteSpace s) as [|c l] eqn:E.
    + by apply dropWhile_nil_iff.
    + apply dropWhile_head in E. inversion H; congruence.
  - intros H. apply dropWhile_nil_iff in H. by rewrite H.
Qed.

End StringFacts.

Section NumberFacts.

Local Open Scope Z_scope.

(** Integers up to 2^53 in magnitude are doubles. *)
Lemma ofInteger_exact (z : Z) :
  Z.abs z <= 2 ^ 53 -> ofInteger z = Finite z.
Proof.
  intros Hz. unfold ofInteger, roundSignificand.
  destruct (Z.ltb_spec (Z.abs z) (2 ^ 53)) as [Hlt|Hge].
  - destruct (Z.leb_spec (2 ^ 1024) (Z.abs z)) as [Hbig|_].
    + exfalso. assert (2 ^ 53 < 2 ^ 1024) by (apply Z.pow_lt_mono_r; lia). lia.
    + f_equal. lia.
  - assert (Habs : Z.abs z = 2 ^ 53) by lia.
    rewrite Habs. vm_compute Z.log2.
    destruct (Z.abs_spec z) as [[? E]|[? E]]; rewrite E in Habs.
    + subst z. reflexivity.
    + assert (z = - 2 ^ 53) by lia. subst z. reflexivity.
Qed.

(** From 2^53 on, [roundSignificand] returns a number with a significand
    of 53 bits that is at most half a unit in the last place away, and
    on a tie the one whose significand is even. *)
Lemma roundSignificand_nearest (m : Z) :
  2 ^ 53 <= m ->
  let e := Z.log2 m - 52 in
  exists k, roundSignificand m = k * 2 ^ e /\ 2 ^ 52 <= k <= 2 ^ 53 /\
            2 * Z.abs (roundSignificand m - m) <= 2 ^ e /\
            (2 * Z.abs (roundSignificand m - m) = 2 ^ e -> Z.even k = true).
Proof.
  intros Hm e. unfold roundSignificand.
  destruct (Z.ltb_spec m (2 ^ 53)) as [?|_]; [lia|]. fold e.
  assert (Hlog : 53 <= Z.log2 m).
  { change 53 with (Z.log2 (2 ^ 53)). by apply Z.log2_le_mono. }
  assert (He : 1 <= e) by (unfold e; lia).
  rewrite Z.shiftr_div_pow2, Z.land_ones, Z.shiftl_mul_pow2 by lia.
  pose proof (Z.log2_spec m ltac:(lia)) as [Hlo Hhi].
  assert (Hpow : 2 ^ Z.log2 m = 2 ^ 52 * 2 ^ e).
  { rewrite <- Z.pow_add_r by lia. f_equal. unfold e. lia. }
  assert (Hpow' : 2 ^ Z.succ (Z.log2 m) = 2 ^ 53 * 2 ^ e).
  { rewrite <- Z.pow_add_r by lia. f_equal. unfold e. lia. }
  assert (Hhalf : 2 ^ e = 2 * 2 ^ (e - 1)).
  { rewrite <- Z.pow_succ_r by lia. f_equal. lia. }
  assert (Hpos : 0 < 2 ^ (e - 1)) by (apply Z.pow_pos_nonneg; lia).
  pose proof (Z.div_mod m (2 ^ e) ltac:(lia)) as Hdm.
  pose proof (Z.mod_pos_bound m (2 ^ e) ltac:(lia)) as Hr.
  set (q := m / 2 ^ e) in *. set (r := m mod 2 ^ e) in *.
  set (h := 2 ^ (e - 1)) in *.
  assert (Hq : 2 ^ 52 <= q < 2 ^ 53) by nia.
  destruct (Z.ltb_spec h r) as [Hgt|Hle]; simpl.
  - exists (q + 1). repeat split; try lia; try nia.
  - destruct (Z.eqb_spec r h) as [Heq|Hne]; simpl.
    + destruct (Z.odd q) eqn:Hodd.
      * exists (q + 1). repeat split; try lia; try nia.
        intros _. rewrite Z.even_add, <- Z.negb_odd, Hodd. reflexivity.
      * exists q. repeat split; try lia; try nia.
        intros _. by rewrite <- Z.negb_odd, Hodd.
    + exists q. repeat split; try lia; try nia.
Qed.

Lemma takeWhile_all p (s : jsstring) :
  Forall (fun c => p c = true) s -> takeWhile p s = s.
Proof. induction 1 as [|c s Hc _ IH]; simpl; [done|]. by rewrite Hc, IH. Qed.

Lemma digit_plain (c : N) :
  isDigit c = true ->
  isWhiteSpace c = false /\ (c =? 45)%N = false /\ (c =? 43)%N = false.
Proof.
  unfold isDigit, isWhiteSpace.
  rewrite andb_true_iff, !N.leb_le. intros [H1 H2].
  repeat split;
    rewrite ?orb_false_iff, ?andb_false_iff, ?N.leb_gt, ?N.eqb_neq;
    repeat split; lia.
Qed.

(** The numeral of a [Decimal.uint] is a run of digits whose value is the
    number the Standard Library reads from it. *)
Lemma uint_isDigit (d : Decimal.uint) :
  Forall (fun c => isDigit c = true) (lit (NilEmpty.string_of_uint d)).
Proof. induction d; simpl; constructor; done. Qed.

Lemma uint_digitsValue_acc (d : Decimal.uint) (acc : positive) :
  digitsValue (Z.pos acc) (lit (NilEmpty.string_of_uint d))
  = Z.pos (Pos.of_uint_acc d acc).
Proof.
  revert acc. induction d; intros acc; simpl; [done|..];
    rewrite <- IHd; f_equal; lia.
Qed.

Lemma uint_digitsValue (d : Decimal.uint) :
  digitsValue 0 (lit (NilEmpty.string_of_uint d)) = Z.of_N (Pos.of_uint d).
Proof.
  induction d; simpl; [done|exact IHd|..];
    rewrite <- uint_digitsValue_acc; reflexivity.
Qed.

Lemma parseInt_digits (ds : jsstring) (negative : bool) :
  ds <> [] -> Forall (fun c => isDigit c = true) ds ->
  parseInt ((if negative then [45%N] else []) ++ ds)
  = ofInteger (if negative then - digitsValue 0 ds else digitsValue 0 ds).
Proof.
  intros Hne Hds. unfold parseInt, trimStart.
  destruct ds as [|c ds]; [done|].
  pose proof (Hc := Forall_inv Hds). apply digit_plain in Hc as (Hw & Hm & Hp).
  destruct negative; simpl app.
  - change (dropWhile isWhiteSpace (45%N :: c :: ds)) with (45%N :: c :: ds).
    cbv beta iota. rewrite N.eqb_refl. by rewrite (takeWhile_all _ _ Hds).
  - simpl dropWhile. rewrite Hw, Hm, Hp.
    by rewrite (takeWhile_all _ _ Hds).
Qed.

(** [parseInt] reads the decimal numeral of any integer as the double
    nearest to that integer. *)
Lemma parseInt_decimal (z : Z) : parseInt (decimal z) = ofInteger z.
Proof.
  destruct z as [|p|p]; [reflexivity|..]; unfold decimal; simpl Z.to_int;
    simpl NilEmpty.string_of_int.
  - pose proof (parseInt_digits (lit (NilEmpty.string_of_uint (Pos.to_uint p))) false) as H.
    simpl in H. rewrite H.
    + by rewrite uint_digitsValue, DecimalPos.Unsigned.of_to.
    + pose proof (DecimalPos.Unsigned.to_uint_nonnil p).
      destruct (Pos.to_uint p); done.
    + apply uint_isDigit.
  - pose proof (parseInt_digits (lit (NilEmpty.string_of_uint (Pos.to_uint p))) true) as H.
    simpl app in H. change (lit (String "-" ?s)) with (45%N :: lit s).
    rewrite H.
    + by rewrite uint_digitsValue, DecimalPos.Unsigned.of_to.
    + pose proof (DecimalPos.Unsigned.to_uint_nonnil p).
      destruct (Pos.to_uint p); done.
    + apply uint_isDigit.
Qed.

Lemma ofInteger_not_NaN (z : Z) : ofInteger z <> NaN.
Proof. unfold ofInteger. by destruct (_ <=? _). Qed.

Lemma parseInt_NaN_iff (s : jsstring) : parseInt s = NaN <-> nonNumeric s.
Proof.
  assert (run : forall (negative : bool) body,
    match takeWhile isDigit body with
    | [] => NaN
    | ds => ofInteger (if negative then - digitsValue 0 ds else digitsValue 0 ds)
    end = NaN
    <-> match body with [] => True | d :: _ => isDigit d = false end).
  { intros negative [|d tl]; simpl; [done|].
    destruct (isDigit d); split; try done.
    intros H. by apply ofInteger_not_NaN in H. }
  unfold parseInt, nonNumeric.
  destruct (trimStart s) as [|c rest]; [done|].
  destruct (c =? 45)%N; [|destruct (c =? 43)%N]; simpl orb; cbv iota beta.
  - exact (run true rest).
  - exact (run false rest).
  - exact (run false (c :: rest)).
Qed.

End NumberFacts.

(** ** Running one event *)

Section Steps.

Implicit Types (w : World) (u : ObjectURL).

Lemma countRevoked_app u (l1 l2 : list Action) :
  countRevoked u (l1 ++ l2) = countRevoked u l1 + countRevoked u l2.
Proof.
  induction l1 as [|[] l1 IH]; simpl; [done|..]; rewrite ?IH; lia.
Qed.

Lemma fetchedIn_app (l1 l2 : list Action) :
  fetchedIn (l1 ++ l2) = fetchedIn l1 ++ fetchedIn l2.
Proof. induction l1 as [|[] l1 IH]; simpl; by rewrite ?IH. Qed.

(** A submit whose trimmed text is empty only writes the error. *)
Lemma step_submit_invalid w text :
  mounted w = true ->
  config w !! lit "text" = Some (VString text) ->
  trim text = [] ->
  exec generateQRCode w =
    let s := {| loading := loading (status w); qrUrl := qrUrl (status w);
                error := Some validationMessage |} in
    mkWorld (config w) s true (effectUrl w) (inFlight w) (nextUrl w)
            (log w ++ [StatusSet s]).
Proof.
  intros Hm Ht He. unfold exec, generateQRCode. rewrite Ht, He. simpl.
  unfold setStatus. by rewrite Hm.
Qed.

(** A submit that passes validation resets the status, then sends the
    request. *)
Lemma step_submit_valid w text :
  mounted w = true ->
  config w !! lit "text" = Some (VString text) ->
  trim text <> [] ->
  exec generateQRCode w =
    let s := {| loading := true; qrUrl := None; error := None |} in
    mkWorld (config w) s true (effectUrl w) (S (inFlight w)) (nextUrl w)
            (log w ++ [StatusSet s; Fetched (qrRequest (config w))]).
Proof.
  intros Hm Ht He. unfold exec, generateQRCode. rewrite Ht.
  destruct (trim text) eqn:E; [done|]. simpl.
  unfold bind, setStatus, fetch, record. rewrite Hm. simpl.
  by rewrite <- app_assoc.
Qed.

(** The value of a submit whose text is not a string is never read. *)
Lemma step_submit_untyped w :
  (forall text, config w !! lit "text" <> Some (VString text)) ->
  exec generateQRCode w = w.
Proof.
  intros H. unfold exec, generateQRCode.
  destruct (config w !! lit "text") as [[text|n]|] eqn:E; try done.
  by destruct (H text).
Qed.

(** The request failed: the [catch] stores the message. *)
Lemma step_settle_failure w o err :
  mounted w = true -> tryBody o = inl err ->
  exec (dispatch (Settle o)) w =
    let s := {| loading := false; qrUrl := None;
                error := Some (errorMessage err) |} in
    mkWorld (config w) s true (effectUrl w) (pred (inFlight w)) (nextUrl w)
            (log w ++ [StatusSet s]).
Proof.
  intros Hm Ho. unfold exec, dispatch, bind, settled, generateQRCode_resume.
  rewrite Ho. unfold setStatus. simpl. by rewrite Hm.
Qed.

(** The request succeeded: an object URL is created and stored. *)
Lemma step_settle_success w o imageBlob :
  mounted w = true -> tryBody o = inr imageBlob ->
  exec (dispatch (Settle o)) w =
    let s := {| loading := false; qrUrl := Some (nextUrl w); error := None |} in
    mkWorld (config w) s true (effectUrl w) (pred (inFlight w))
            (S (nextUrl w)) (log w ++ [Created (nextUrl w); StatusSet s]).
Proof.
  intros Hm Ho. unfold exec, dispatch, bind, settled, generateQRCode_resume.
  rewrite Ho. unfold bind, createObjectURL, setStatus, record. simpl.
  rewrite Hm. simpl. by rewrite <- app_assoc.
Qed.

(** A request that settles after the component is gone: the state update
    is dropped, but the object URL has been created. *)
Lemma step_settle_unmounted w o :
  mounted w = false ->
  exec (dispatch (Settle o)) w =
    match tryBody o with
    | inl _ =>
        mkWorld (config w) (status w) false (effectUrl w)
                (pred (inFlight w)) (nextUrl w) (log w)
    | inr _ =>
        mkWorld (config w) (status w) false (effectUrl w)
                (pred (inFlight w)) (S (nextUrl w))
                (log w ++ [Created (nextUrl w)])
    end.
Proof.
  intros Hm. unfold exec, dispatch, bind, settled, generateQRCode_resume.
  destruct (tryBody o); unfold bind, createObjectURL, setStatus, record;
    simpl; by rewrite Hm.
Qed.

Lemma exec_runEffects w :
  mounted w = true ->
  exec runEffects w =
    mkWorld (config w) (status w) true (qrUrl (status w)) (inFlight w)
            (nextUrl w) (log w ++ released (effectUrl w) (qrUrl (status w))).
Proof.
  intros Hm. unfold exec, runEffects, released. rewrite Hm.
  destruct w as [cfg st m eu nf nx lg]; simpl in *; subst m.
  destruct (decide (qrUrl st = eu)) as [<-|Hne]; simpl.
  - by rewrite app_nil_r.
  - destruct eu; unfold bind, effectCleanup, revokeObjectURL, setEffectUrl,
      record, ret; simpl; by rewrite ?app_nil_r.
Qed.

Lemma exec_runEffects_unmounted w :
  mounted w = false -> exec runEffects w = w.
Proof. intros Hm. unfold exec, runEffects. by rewrite Hm. Qed.

Lemma step_unfold e w : step e w = exec runEffects (exec (dispatch e) w).
Proof. unfold step, exec, bind. by destruct (dispatch e w). Qed.

Lemma exec_unmount w :
  exec unmount w =
    mkWorld (config w) (status w) false (effectUrl w) (inFlight w)
            (nextUrl w)
            (log w ++ match effectUrl w with Some u => [Revoked u] | None => [] end).
Proof.
  unfold exec, unmount, bind, effectCleanup.
  destruct (effectUrl w) eqn:E; unfold revokeObjectURL, record, ret; simpl;
    rewrite ?E, ?app_nil_r; done.
Qed.

(** An edit only touches [config]. *)
Lemma exec_change w c v :
  mounted w = true ->
  exists cfg,
    exec (dispatch (Change c v)) w =
      mkWorld cfg (status w) true (effectUrl w) (inFlight w) (nextUrl w) (log w).
Proof.
  intros Hm. unfold exec, dispatch, handleInputChange.
  destruct w as [cfg st m eu nf nx lg]; simpl in *; subst m.
  repeat case_decide; try destruct (negb _); unfold setConfig, ret; simpl;
    eauto.
Qed.

(** The whole step, effects included, in closed form. *)
Lemma step_change w c v :
  mounted w = true ->
  step (Change c v) w =
    mkWorld (config (step (Change c v) w)) (status w) true
            (qrUrl (status w)) (inFlight w) (nextUrl w)
            (log w ++ released (effectUrl w) (qrUrl (status w))).
Proof.
  intros Hm. destruct (exec_change w c v Hm) as [cfg E].
  rewrite step_unfold, E, exec_runEffects by done. done.
Qed.

Lemma config_change w c v :
  mounted w = true ->
  config (step (Change c v) w) =
    match c with
    | Size | Margin =>
        if decide (v = []) then <[control_name c := emptySentinel]> (config w)
        else match parseInt v with
             | NaN => config w
             | n => <[control_name c := VNumber n]> (config w)
             end
    | _ => <[control_name c := VString v]> (config w)
    end.
Proof.
  intros Hm. destruct (exec_change w c v Hm) as [cfg E].
  rewrite step_unfold, E, exec_runEffects by done. simpl.
  apply (f_equal config) in E. simpl in E. subst cfg.
  unfold exec, dispatch, handleInputChange, changeOf, setConfig.
  destruct c; simpl; rewrite ?Hm; try done;
    (destruct (decide (v = [])); simpl; rewrite ?Hm; [done|];
     destruct (parseInt v); simpl; rewrite ?Hm; done).
Qed.

Lemma step_submit_invalid' w text :
  mounted w = true ->
  config w !! lit "text" = Some (VString text) ->
  trim text = [] ->
  step Submit w =
    let s := {| loading := loading (status w); qrUrl := qrUrl (status w);
                error := Some validationMessage |} in
    mkWorld (config w) s true (qrUrl (status w)) (inFlight w) (nextUrl w)
            (log w ++ [StatusSet s] ++ released (effectUrl w) (qrUrl (status w))).
Proof.
  intros Hm Ht He. rewrite step_unfold. simpl dispatch.
  rewrite (step_submit_invalid w text), exec_runEffects by done.
  simpl. by rewrite <- app_assoc.
Qed.

Lemma step_submit_valid' w text :
  mounted w = true ->
  config w !! lit "text" = Some (VString text) ->
  trim text <> [] ->
  step Submit w =
    let s := {| loading := true; qrUrl := None; error := None |} in
    mkWorld (config w) s true None (S (inFlight w)) (nextUrl w)
            (log w ++ [StatusSet s; Fetched (qrRequest (config w))]
                   ++ released (effectUrl w) None).
Proof.
  intros Hm Ht He. rewrite step_unfold. simpl dispatch.
  rewrite (step_submit_valid w text), exec_runEffects by done.
  simpl. by rewrite <- app_assoc.
Qed.

Lemma step_submit_untyped' w :
  mounted w = true ->
  (forall text, config w !! lit "text" <> Some (VString text)) ->
  step Submit w =
    mkWorld (config w) (status w) true (qrUrl (status w)) (inFlight w)
            (nextUrl w) (log w ++ released (effectUrl w) (qrUrl (status w))).
Proof.
  intros Hm Ht. rewrite step_unfold. simpl dispatch.
  rewrite step_submit_untyped, exec_runEffects by done. done.
Qed.

Lemma step_settle_failure' w o err :
  mounted w = true -> tryBody o = inl err ->
  step (Settle o) w =
    let s := {| loading := false; qrUrl := None;
                error := Some (errorMessage err) |} in
    mkWorld (config w) s true None (pred (inFlight w)) (nextUrl w)
            (log w ++ [StatusSet s] ++ released (effectUrl w) None).
Proof.
  intros Hm Ho. rewrite step_unfold.
  rewrite (step_settle_failure w o err), exec_runEffects by done.
  simpl. by rewrite <- app_assoc.
Qed.

Lemma step_settle_success' w o imageBlob :
  mounted w = true -> tryBody o = inr imageBlob ->
  step (Settle o) w =
    let s := {| loading := false; qrUrl := Some (nextUrl w); error := None |} in
    mkWorld (config w) s true (Some (nextUrl w)) (pred (inFlight w))
            (S (nextUrl w))
            (log w ++ [Created (nextUrl w); StatusSet s]
                   ++ released (effectUrl w) (Some (nextUrl w))).
Proof.
  intros Hm Ho. rewrite step_unfold.
  rewrite (step_settle_success w o imageBlob), exec_runEffects by done.
  simpl. by rewrite <- app_assoc.
Qed.

Lemma step_settle_unmounted' w o :
  mounted w = false ->
  step (Settle o) w =
    match tryBody o with
    | inl _ =>
        mkWorld (config w) (status w) false (effectUrl w)
                (pred (inFlight w)) (nextUrl w) (log w)
    | inr _ =>
        mkWorld (config w) (status w) false (effectUrl w)
                (pred (inFlight w)) (S (nextUrl w))
                (log w ++ [Created (nextUrl w)])
    end.
Proof.
  intros Hm. rewrite step_unfold, step_settle_unmounted by done.
  destruct (tryBody o); by rewrite exec_runEffects_unmounted.
Qed.

Lemma step_unmount w :
  step Unmount w =
    mkWorld (config w) (status w) false (effectUrl w) (inFlight w)
            (nextUrl w)
            (log w ++ match effectUrl w with Some u => [Revoked u] | None => [] end).
Proof.
  rewrite step_unfold. simpl dispatch. rewrite exec_unmount.
  by rewrite exec_runEffects_unmounted.
Qed.

Lemma fetchedIn_released old new : fetchedIn (released old new) = [].
Proof. unfold released. case_decide; [done|]. by destruct old. Qed.

Lemma requests_submit_valid w text :
  mounted w = true ->
  config w !! lit "text" = Some (VString text) ->
  trim text <> [] ->
  requests (step Submit w) = requests w ++ [qrRequest (config w)].
Proof.
  intros Hm Ht He. rewrite (step_submit_valid' w text Hm Ht He).
  unfold requests. simpl. rewrite fetchedIn_app. simpl.
  by rewrite fetchedIn_released.
Qed.

End Steps.

(** ** Invariants *)

Section Invariants.

Implicit Types (w : World) (u : ObjectURL) (e : Event).

Lemma run_invariant (P : World -> Prop) :
  (forall e w, P w -> enabled e w = true -> P (step e w)) ->
  forall es w w', P w -> run es w = Some w' -> P w'.
Proof.
  intros Hstep es. induction es as [|e es IH]; simpl; intros w w' Hw Hrun.
  - by injection Hrun as <-.
  - destruct (enabled e w) eqn:En; [|done]. eauto.
Qed.

Lemma reachable_invariant (P : World -> Prop) :
  P initialWorld ->
  (forall e w, P w -> enabled e w = true -> P (step e w)) ->
  forall w, reachable w -> P w.
Proof. intros H0 Hstep w [es Hes]. eapply run_invariant; eauto. Qed.

Lemma reachable_step e w :
  reachable w -> enabled e w = true -> reachable (step e w).
Proof.
  intros [es Hes] En. exists (es ++ [e]).
  revert Hes. generalize initialWorld. induction es as [|e' es IH]; simpl.
  - intros w0 [= ->]. by rewrite En.
  - intros w0. destruct (enabled e' w0); [apply IH|done].
Qed.

Lemma enabled_mounted e w :
  enabled e w = true -> mounted w = true \/ exists o, e = Settle o.
Proof.
  destruct e; simpl; eauto. rewrite andb_true_iff. tauto.
Qed.

(** The effect keeps up with [status.qrUrl]. *)
Lemma step_synced e w : effectSynced (step e w).
Proof.
  intros Hm. rewrite step_unfold in *.
  destruct (mounted (exec (dispatch e) w)) eqn:E.
  - rewrite exec_runEffects by done. done.
  - rewrite exec_runEffects_unmounted in Hm by done. congruence.
Qed.

(** Case analysis of one step of a mounted component. *)
Ltac step_cases e w Hm :=
  let c := fresh "c" in let v := fresh "v" in let o := fresh "o" in
  let text := fresh "text" in let Et := fresh "Et" in
  let He := fresh "He" in let Eo := fresh "Eo" in
  let err := fresh "err" in let blob := fresh "blob" in
  destruct e as [c v| |o|];
  [ rewrite (step_change w c v Hm)
  | destruct (config w !! lit "text") as [[text|?]|] eqn:Et;
    [ destruct (decide (trim text = [])) as [He|He];
      [ rewrite (step_submit_invalid' w text Hm Et He)
      | rewrite (step_submit_valid' w text Hm Et He) ]
    | rewrite (step_submit_untyped' w Hm) by (intros ?; congruence)
    | rewrite (step_submit_untyped' w Hm) by (intros ?; congruence) ]
  | destruct (tryBody o) as [err|blob] eqn:Eo;
    [ rewrite (step_settle_failure' w o err Hm Eo)
    | rewrite (step_settle_success' w o blob Hm Eo) ]
  | rewrite (step_unmount w) ].

Lemma singleFlight_step e w :
  singleFlight w -> enabled e w = true -> singleFlight (step e w).
Proof.
  intros (Hle & Hiff & Hnone) En. destruct (mounted w) eqn:Hm.
  - specialize (Hiff eq_refl). specialize (Hnone eq_refl).
    assert (Hidle : e = Submit -> inFlight w = 0).
    { intros ->. simpl in En. rewrite Hm in En. unfold submitDisabled in En.
      apply negb_true_iff in En. destruct (inFlight w) as [|[|n]]; [done| |lia].
      destruct Hiff as [_ Hiff]. rewrite Hiff in En; done. }
    assert (Hbusy : forall o, e = Settle o -> inFlight w = 1).
    { intros o ->. simpl in En. apply bool_decide_eq_true in En. lia. }
    step_cases e w Hm; unfold singleFlight; simpl;
      rewrite ?(Hidle eq_refl), ?(Hbusy _ eq_refl);
      repeat split; intros; try done; try lia; try tauto.
    all: simpl in En; rewrite Hm in En; unfold submitDisabled in En;
      apply negb_true_iff in En; congruence.
  - destruct (enabled_mounted e w En) as [?|[o ->]]; [congruence|].
    rewrite step_settle_unmounted' by done.
    destruct (tryBody o); unfold singleFlight; simpl;
      repeat split; intros; try done; lia.
Qed.

Lemma singleFlight_reachable w : reachable w -> singleFlight w.
Proof.
  apply reachable_invariant.
  - unfold singleFlight. simpl. repeat split; intros; try done; lia.
  - intros e w'. apply singleFlight_step.
Qed.

Lemma countRevoked_released u old new :
  countRevoked u (released old new)
  = if decide (old = Some u) then (if decide (new = old) then 0 else 1) else 0.
Proof.
  unfold released. destruct (decide (new = old)) as [->|Hne].
  - by destruct (decide (old = Some u)).
  - destruct old as [u'|]; simpl; [|done].
    destruct (decide (u' = u)) as [->|Hu];
      destruct (decide (_ = _)) as [H|H]; try done; congruence.
Qed.

Lemma created_released u old new : Created u ∈ released old new -> False.
Proof.
  unfold released. case_decide; [by intros ?%elem_of_nil|].
  destruct old; [by intros ?%list_elem_of_singleton|by intros ?%elem_of_nil].
Qed.

(** Case analysis on the decisions of the goal only. *)
Ltac goal_decide :=
  repeat match goal with
         | |- context [decide ?P] => destruct (decide P)
         end.

Lemma inert_countRevoked u (l : list Action) : inert l -> countRevoked u l = 0.
Proof.
  induction l as [|a l IH]; intros Hl; simpl; [done|].
  assert (Ha := Hl a ltac:(set_solver)).
  rewrite IH by (intros b Hb; apply Hl; set_solver).
  by destruct a.
Qed.

Lemma inert_created u (l : list Action) : inert l -> Created u ∈ l -> False.
Proof. intros Hl Hu. exact (Hl _ Hu). Qed.

(** A step that creates no object URL: the one on display stays or is
    dropped, and in the latter case the cleanup revokes it. *)
Lemma accounted_keep lg nx q q' mid :
  accounted lg nx q true -> inert mid -> q' = q \/ q' = None ->
  accounted (lg ++ mid ++ released q q') nx q' true.
Proof.
  intros (Hc & Hfresh & Hle & Hq & Hacc) Hmid Hq'.
  specialize (Hacc eq_refl).
  assert (Hcount : forall u, countRevoked u (lg ++ mid ++ released q q')
    = countRevoked u lg
      + if decide (q = Some u) then (if decide (q' = q) then 0 else 1) else 0).
  { intros u. rewrite !countRevoked_app, countRevoked_released.
    rewrite (inert_countRevoked u mid Hmid). lia. }
  repeat split.
  - rewrite !elem_of_app. intros [H|[H|H]]; [by apply Hc|..].
    + by destruct (inert_created u mid).
    + by destruct (created_released u q q').
  - intros H. rewrite elem_of_app. left. by apply Hc.
  - intros u Hu. rewrite Hcount, (Hfresh u Hu).
    destruct (decide (q = Some u)) as [Hd|_]; [|done]. apply Hq in Hd. lia.
  - intros u. rewrite Hcount. destruct (decide (u < nx)) as [Hu|Hu].
    + rewrite (Hacc u Hu). goal_decide; lia.
    + rewrite (Hfresh u) by lia. destruct (decide (q = Some u)) as [Hd|_]; [|lia].
      apply Hq in Hd. lia.
  - intros u Hu. destruct Hq' as [->| ->]; [by apply Hq|done].
  - intros _ u Hu. rewrite Hcount, (Hacc u Hu).
    destruct Hq' as [->| ->]; goal_decide; try lia; congruence.
Qed.

(** A step that creates the object URL [nx] and puts it on display. *)
Lemma accounted_create lg nx q mid :
  accounted lg nx q true -> inert mid ->
  accounted (lg ++ (Created nx :: mid) ++ released q (Some nx)) (S nx)
            (Some nx) true.
Proof.
  intros (Hc & Hfresh & Hle & Hq & Hacc) Hmid.
  specialize (Hacc eq_refl).
  assert (Hne : q <> Some nx) by (intros H; apply Hq in H; lia).
  assert (Hcount : forall u,
    countRevoked u (lg ++ (Created nx :: mid) ++ released q (Some nx))
    = countRevoked u lg + if decide (q = Some u) then 1 else 0).
  { intros u. rewrite !countRevoked_app, countRevoked_released. simpl.
    rewrite (inert_countRevoked u mid Hmid).
    goal_decide; try lia; congruence. }
  repeat split.
  - rewrite !elem_of_app, elem_of_cons. intros [H|[[H|H]|H]].
    + apply Hc in H. lia.
    + injection H as ->. lia.
    + by destruct (inert_created u mid).
    + by destruct (created_released u q (Some nx)).
  - intros H. rewrite !elem_of_app, elem_of_cons.
    destruct (decide (u = nx)) as [->|Hu]; [right; left; by left|].
    left. apply Hc. lia.
  - intros u Hu. rewrite Hcount, (Hfresh u) by lia.
    destruct (decide (q = Some u)) as [Hd|_]; [|done]. apply Hq in Hd. lia.
  - intros u. rewrite Hcount. destruct (decide (u < nx)) as [Hu|Hu].
    + rewrite (Hacc u Hu). goal_decide; lia.
    + rewrite (Hfresh u) by lia. goal_decide; lia.
  - intros u [= <-]. lia.
  - intros _ u Hu. rewrite Hcount. destruct (decide (u = nx)) as [->|Hne'].
    + rewrite (Hfresh nx) by lia. goal_decide; try done.
    + rewrite (Hacc u) by lia. goal_decide; try lia; congruence.
Qed.

(** Unmounting revokes the URL on display, if any. *)
Lemma accounted_unmount lg nx q :
  accounted lg nx q true ->
  accounted (lg ++ match q with Some u => [Revoked u] | None => [] end)
            nx q false
  /\ forall u, u < nx ->
       countRevoked u (lg ++ match q with Some u => [Revoked u] | None => [] end) = 1.
Proof.
  intros (Hc & Hfresh & Hle & Hq & Hacc). specialize (Hacc eq_refl).
  assert (Hcount : forall u,
    countRevoked u (lg ++ match q with Some u => [Revoked u] | None => [] end)
    = countRevoked u lg + if decide (q = Some u) then 1 else 0).
  { intros u. rewrite countRevoked_app. destruct q as [u'|]; simpl;
      goal_decide; try lia; congruence. }
  assert (Hall : forall u, u < nx ->
    countRevoked u (lg ++ match q with Some u => [Revoked u] | None => [] end) = 1).
  { intros u Hu. rewrite Hcount, (Hacc u Hu). goal_decide; lia. }
  split; [|done]. repeat split.
  - rewrite elem_of_app. intros [H|H]; [by apply Hc|].
    destruct q; [by apply list_elem_of_singleton in H|by apply elem_of_nil in H].
  - intros H. rewrite elem_of_app. left. by apply Hc.
  - intros u Hu. rewrite Hcount, (Hfresh u Hu).
    destruct (decide (q = Some u)) as [Hd|_]; [|done]. apply Hq in Hd. lia.
  - intros u. destruct (decide (u < nx)) as [Hu|Hu].
    + by rewrite Hall.
    + rewrite Hcount, (Hfresh u) by lia. goal_decide; lia.
  - done.
  - done.
Qed.

(** After unmounting, a late response can still create an object URL;
    nothing is revoked any more. *)
Lemma accounted_late lg nx q :
  accounted lg nx q false ->
  accounted (lg ++ [Created nx]) (S nx) q false.
Proof.
  intros (Hc & Hfresh & Hle & Hq & _).
  assert (Hcount : forall u, countRevoked u (lg ++ [Created nx]) = countRevoked u lg).
  { intros u. rewrite countRevoked_app. simpl. lia. }
  repeat split.
  - rewrite elem_of_app, list_elem_of_singleton. intros [H|[= ->]]; [|lia].
    apply Hc in H. lia.
  - intros H. rewrite elem_of_app, list_elem_of_singleton.
    destruct (decide (u = nx)) as [->|Hu]; [by right|].
    left. apply Hc. lia.
  - intros u Hu. rewrite Hcount. apply Hfresh. lia.
  - intros u. rewrite Hcount. apply Hle.
  - intros u Hu. apply Hq in Hu. lia.
  - done.
Qed.

Ltac solve_inert :=
  let a := fresh "a" in let Ha := fresh "Ha" in
  intros a Ha;
  repeat (apply elem_of_cons in Ha as [->|Ha]; [done|]);
  by apply elem_of_nil in Ha.

Lemma urlsAccounted_step e w :
  urlsAccounted w -> enabled e w = true -> urlsAccounted (step e w).
Proof.
  intros [Hs Hacc] En. split; [apply step_synced|].
  unfold effectSynced in Hs. destruct (mounted w) eqn:Hm.
  - specialize (Hs eq_refl).
    step_cases e w Hm; simpl; rewrite ?Hs.
    + apply (accounted_keep _ _ _ _ []); [done|solve_inert|by left].
    + apply (accounted_keep _ _ _ _ [_]); [done|solve_inert|by left].
    + apply (accounted_keep _ _ _ _ [_; _]); [done|solve_inert|by right].
    + apply (accounted_keep _ _ _ _ []); [done|solve_inert|by left].
    + apply (accounted_keep _ _ _ _ []); [done|solve_inert|by left].
    + apply (accounted_keep _ _ _ _ [_]); [done|solve_inert|by right].
    + apply (accounted_create _ _ _ [_]); [done|solve_inert].
    + by apply accounted_unmount.
  - destruct (enabled_mounted e w En) as [?|[o ->]]; [congruence|].
    rewrite step_settle_unmounted' by done.
    destruct (tryBody o); simpl; [done|]. by apply accounted_late.
Qed.

Lemma urlsAccounted_reachable w : reachable w -> urlsAccounted w.
Proof.
  apply reachable_invariant.
  - split; [done|]. unfold accounted. simpl.
    repeat split; intros; try done; try lia.
    + by apply elem_of_nil in H.
  - intros e w'. apply urlsAccounted_step.
Qed.

Lemma synced_reachable w :
  reachable w -> mounted w = true -> effectUrl w = qrUrl (status w).
Proof. intros Hw. by destruct (urlsAccounted_reachable w Hw) as [Hs _]. Qed.

(** *** The shape of [config] *)

Ltac key_ne := let H := fresh in intros H; vm_compute in H; discriminate H.

Lemma wellTyped_initial : wellTyped initialConfig.
Proof.
  unfold wellTyped, initialConfig, configKeys.
  split; [rewrite !dom_insert_L, dom_empty_L; set_solver|].
  repeat split; vm_compute; eauto.
  - right. eexists. split; [done|discriminate].
  - right. eexists. split; [done|discriminate].
Qed.

Lemma wellTyped_change (c : Control) (cfg : QRConfig) (x : value) :
  wellTyped cfg ->
  match c with
  | Size | Margin => isNumberOrEmpty (Some x)
  | _ => isString (Some x)
  end ->
  wellTyped (<[control_name c := x]> cfg).
Proof.
  intros (Hdom & Ht & Hs & Hc & Hb & Hm) Hx. unfold wellTyped.
  split.
  - rewrite dom_insert_L, Hdom. unfold configKeys.
    destruct c; simpl; set_solver.
  - destruct c; simpl control_name;
      rewrite ?lookup_insert_eq, ?lookup_insert_ne by key_ne; done.
Qed.

Lemma configTyped_step e w :
  configTyped w -> enabled e w = true -> configTyped (step e w).
Proof.
  intros [Hcfg Hreq] En. unfold configTyped, requests in *.
  destruct (mounted w) eqn:Hm.
  - step_cases e w Hm;
      do 2 (simpl; rewrite ?fetchedIn_app, ?fetchedIn_released, ?app_nil_r);
      try (split; done).
    + split; [|done]. rewrite config_change by done.
      destruct c; try (apply wellTyped_change; [done|by eexists]).
      * destruct (decide (v = [])); [apply wellTyped_change; [done|by left]|].
        destruct (parseInt v) eqn:E; [done|..];
          (apply wellTyped_change; [done|]; right; eexists; by split).
      * destruct (decide (v = [])); [apply wellTyped_change; [done|by left]|].
        destruct (parseInt v) eqn:E; [done|..];
          (apply wellTyped_change; [done|]; right; eexists; by split).
    + split; [done|]. intros r. rewrite elem_of_app, list_elem_of_singleton.
      intros [Hr| ->]; [by apply Hreq|]. by exists (config w).
    + split; [done|]. destruct (effectUrl w); simpl; by rewrite app_nil_r.
  - destruct (enabled_mounted e w En) as [?|[o ->]]; [congruence|].
    rewrite step_settle_unmounted' by done.
    destruct (tryBody o); simpl; rewrite ?fetchedIn_app; simpl;
      rewrite ?app_nil_r; done.
Qed.

Lemma configTyped_reachable w : reachable w -> configTyped w.
Proof.
  apply reachable_invariant.
  - split; [apply wellTyped_initial|]. intros r Hr. by apply elem_of_nil in Hr.
  - intros e w'. apply configTyped_step.
Qed.




End Invariants.

(** * The claims of the specification *)

Section Validation.

Implicit Types (w : World) (text : jsstring).

(** C1. A submit whose text field is empty or made of white space only
    (so that it trims to the empty string) issues no network request and
    sets the error to exactly "Please enter some content first.". *)
Theorem blank_submit_sends_nothing w text :
  mounted w = true ->
  config w !! lit "text" = Some (VString text) ->
  Forall (fun c => isWhiteSpace c = true) text ->
  requests (step Submit w) = requests w /\
  inFlight (step Submit w) = inFlight w /\
  error (status (step Submit w)) = Some (lit "Please enter some content first.").
Proof.
  intros Hm Ht Hws. apply trim_nil_iff in Hws.
  rewrite (step_submit_invalid' w text Hm Ht Hws). unfold requests. simpl.
  rewrite fetchedIn_app. simpl. by rewrite fetchedIn_released, app_nil_r.
Qed.

Lemma blank_submit_sends_nothing_witness :
  let w := step (Change Content (lit "  ")) initialWorld in
  requests (step Submit w) = requests w /\
  inFlight (step Submit w) = inFlight w /\
  error (status (step Submit w)) = Some (lit "Please enter some content first.").
Proof.
  apply (blank_submit_sends_nothing
           (step (Change Content (lit "  ")) initialWorld) (lit "  ")).
  - reflexivity.
  - vm_compute. reflexivity.
  - repeat constructor.
Defined.

(** C10. A submit that fails validation overwrites only the error: the
    loading flag and the result handle keep their values, and the handle
    of an earlier success is not released. *)
Theorem blank_submit_keeps_result w text :
  reachable w -> mounted w = true ->
  config w !! lit "text" = Some (VString text) ->
  Forall (fun c => isWhiteSpace c = true) text ->
  status (step Submit w) =
    {| loading := loading (status w); qrUrl := qrUrl (status w);
       error := Some validationMessage |} /\
  config (step Submit w) = config w /\
  forall u, revocations u (step Submit w) = revocations u w.
Proof.
  intros Hw Hm Ht Hws. apply trim_nil_iff in Hws.
  rewrite (step_submit_invalid' w text Hm Ht Hws).
  rewrite (synced_reachable w Hw Hm). unfold revocations. simpl.
  repeat split. intros u.
  rewrite countRevoked_app. simpl. rewrite countRevoked_released.
  destruct (decide (qrUrl (status w) = Some u)); [|lia].
  destruct (decide (qrUrl (status w) = qrUrl (status w))); [lia|done].
Qed.

Lemma blank_submit_keeps_result_witness :
  let w := step (Change Content [])
             (step (Settle (Responded true (inr [])))
                (step Submit initialWorld)) in
  qrUrl (status w) = Some 0 /\
  (status (step Submit w) =
     {| loading := loading (status w); qrUrl := qrUrl (status w);
        error := Some validationMessage |} /\
   config (step Submit w) = config w /\
   forall u, revocations u (step Submit w) = revocations u w).
Proof.
  split; [reflexivity|].
  apply (blank_submit_keeps_result
    (step (Change Content [])
       (step (Settle (Responded true (inr [])))
          (step Submit initialWorld))) []).
  - exists [Submit; Settle (Responded true (inr [])); Change Content []].
    vm_compute. reflexivity.
  - reflexivity.
  - vm_compute. reflexivity.
  - constructor.
Defined.

End Validation.

Section RequestLifecycle.

Implicit Types (w : World) (text : jsstring) (o : Outcome).

(** C6. A submit that passes validation throws away the prior error and
    the prior result handle and sets loading, replacing the status by
    [{loading: true, error: null, qrUrl: null}], and only then issues
    exactly one request. The body of that request is the current [config]
    as structured data: it has a member for each property of [config] and
    no other, a string property as a JSON string, a finite number as a
    JSON number, an infinite one as [null]. *)
Theorem valid_submit_resets_then_sends w text :
  mounted w = true ->
  config w !! lit "text" = Some (VString text) ->
  trim text <> [] ->
  let cleared := {| loading := true; qrUrl := None; error := None |} in
  exists r,
    log (step Submit w)
      = log w ++ [StatusSet cleared; Fetched r] ++ released (effectUrl w) None /\
    status (step Submit w) = cleared /\
    requests (step Submit w) = requests w ++ [r] /\
    inFlight (step Submit w) = S (inFlight w) /\
    config (step Submit w) = config w /\
    (forall k, body r !! k = None <-> config w !! k = None) /\
    (forall k s, config w !! k = Some (VString s) ->
       body r !! k = Some (JString s)) /\
    (forall k z, config w !! k = Some (VNumber (Finite z)) ->
       body r !! k = Some (JNumber z)) /\
    (forall k negative, config w !! k = Some (VNumber (Infinity negative)) ->
       body r !! k = Some JNull).
Proof.
  intros Hm Ht He cleared. exists (qrRequest (config w)).
  rewrite (step_submit_valid' w text Hm Ht He).
  unfold requests. simpl.
  split; [done|]. split; [done|]. split.
  { rewrite fetchedIn_app. simpl. by rewrite fetchedIn_released. }
  split; [done|]. split; [done|].
  unfold JSON_stringify. split; [|split; [|split]].
  - intros k. rewrite lookup_fmap. by destruct (config w !! k).
  - intros k s Hk. by rewrite lookup_fmap, Hk.
  - intros k z Hk. by rewrite lookup_fmap, Hk.
  - intros k negative Hk. by rewrite lookup_fmap, Hk.
Qed.

Lemma valid_submit_resets_then_sends_witness :
  let w := step (Change Content (lit "hello"))
             (step Submit
                (step (Change Content [])
                   (step (Settle (Responded true (inr [])))
                      (step Submit initialWorld)))) in
  status w = {| loading := false; qrUrl := Some 0;
                error := Some validationMessage |} /\
  let cleared := {| loading := true; qrUrl := None; error := None |} in
  exists r,
    log (step Submit w)
      = log w ++ [StatusSet cleared; Fetched r] ++ released (effectUrl w) None /\
    status (step Submit w) = cleared /\
    requests (step Submit w) = requests w ++ [r] /\
    inFlight (step Submit w) = S (inFlight w) /\
    config (step Submit w) = config w /\
    (forall k, body r !! k = None <-> config w !! k = None) /\
    (forall k s, config w !! k = Some (VString s) ->
       body r !! k = Some (JString s)) /\
    (forall k z, config w !! k = Some (VNumber (Finite z)) ->
       body r !! k = Some (JNumber z)) /\
    (forall k negative, config w !! k = Some (VNumber (Infinity negative)) ->
       body r !! k = Some JNull).
Proof.
  split; [vm_compute; reflexivity|].
  apply (valid_submit_resets_then_sends
           (step (Change Content (lit "hello"))
              (step Submit
                 (step (Change Content [])
                    (step (Settle (Responded true (inr [])))
                       (step Submit initialWorld)))))
           (lit "hello")).
  - reflexivity.
  - vm_compute. reflexivity.
  - vm_compute. discriminate.
Defined.

(** C2, as amended. When the request of a submit has settled, exactly
    one of the result handle and the error is set and loading is cleared:
    a response that is not 2xx, a rejected [fetch] and a 2xx response
    whose body cannot be read all leave an error and no handle; a 2xx
    response whose body has been read leaves a handle and no error. *)
Theorem settled_submit_has_result_xor_error w o :
  mounted w = true ->
  let s := status (step (Settle o) w) in
  loading s = false /\
  (is_Some (qrUrl s) /\ error s = None \/ qrUrl s = None /\ is_Some (error s)) /\
  match o with
  | Responded true (inr _) => qrUrl s = Some (nextUrl w) /\ error s = None
  | Responded true (inl t) | FetchRejected t =>
      qrUrl s = None /\ error s = Some (errorMessage t)
  | Responded false _ => qrUrl s = None /\ error s = Some serverMessage
  end.
Proof.
  intros Hm. destruct (tryBody o) as [err|blob] eqn:Eo.
  - rewrite (step_settle_failure' w o err Hm Eo). simpl.
    split; [done|]. split; [right; eauto|].
    destruct o as [t|[] [t|b]]; simpl in Eo; by simplify_eq.
  - rewrite (step_settle_success' w o blob Hm Eo). simpl.
    split; [done|]. split; [left; eauto|].
    destruct o as [t|[] [t|b]]; simpl in Eo; by simplify_eq.
Qed.

Lemma settled_submit_has_result_xor_error_witness :
  let w := step Submit initialWorld in
  let s := status (step (Settle (Responded false (inr []))) w) in
  loading s = false /\
  (is_Some (qrUrl s) /\ error s = None \/ qrUrl s = None /\ is_Some (error s)) /\
  qrUrl s = None /\ error s = Some serverMessage.
Proof.
  apply (settled_submit_has_result_xor_error
           (step Submit initialWorld) (Responded false (inr []))).
  reflexivity.
Defined.

(** C2, as stated, fails: a response can be 2xx and still leave an error
    and no handle, namely when [response.blob()] rejects because the body
    cannot be read; the [await] is inside the [try]. *)
Lemma ok_response_with_unreadable_body_sets_error :
  let w := step Submit initialWorld in
  let o := Responded true (inl (ErrorObject (lit "Failed to fetch"))) in
  let s := status (step (Settle o) w) in
  enabled (Settle o) w = true /\
  qrUrl s = None /\ error s = Some (lit "Failed to fetch") /\
  ~ (is_Some (qrUrl s) /\ error s = None).
Proof.
  split; [reflexivity|]. split; [reflexivity|]. split; [reflexivity|].
  intros [_ H]. vm_compute in H. discriminate H.
Qed.

(** C7. A response that is not 2xx and a transport exception both end in
    the same place, the error message: the message of the exception, or
    "Something went wrong." when the thrown value is not an Error. Nothing
    else records which of the two happened. *)
Theorem failures_share_one_message w :
  mounted w = true ->
  (forall t,
     status (step (Settle (FetchRejected t)) w) =
       {| loading := false; qrUrl := None;
          error := Some match t with
                        | ErrorObject message => message
                        | NotAnError => lit "Something went wrong."
                        end |}) /\
  (forall b,
     status (step (Settle (Responded false b)) w) =
       {| loading := false; qrUrl := None;
          error := Some (lit "Server error. Is the Python backend running?") |}) /\
  (forall b,
     step (Settle (Responded false b)) w
     = step (Settle (FetchRejected (ErrorObject serverMessage))) w).
Proof.
  intros Hm. split; [|split].
  - intros t. rewrite (step_settle_failure' w (FetchRejected t) t Hm eq_refl).
    by destruct t.
  - intros b.
    by rewrite (step_settle_failure' w (Responded false b)
                  (ErrorObject serverMessage) Hm eq_refl).
  - intros b.
    rewrite (step_settle_failure' w (Responded false b) (ErrorObject serverMessage) Hm eq_refl).
    by rewrite (step_settle_failure' w (FetchRejected _) (ErrorObject serverMessage) Hm eq_refl).
Qed.

Lemma failures_share_one_message_witness :
  let w := step Submit initialWorld in
  (forall t,
     status (step (Settle (FetchRejected t)) w) =
       {| loading := false; qrUrl := None;
          error := Some match t with
                        | ErrorObject message => message
                        | NotAnError => lit "Something went wrong."
                        end |}) /\
  (forall b,
     status (step (Settle (Responded false b)) w) =
       {| loading := false; qrUrl := None;
          error := Some (lit "Server error. Is the Python backend running?") |}) /\
  (forall b,
     step (Settle (Responded false b)) w
     = step (Settle (FetchRejected (ErrorObject serverMessage))) w).
Proof.
  apply (failures_share_one_message (step Submit initialWorld)). reflexivity.
Defined.

End RequestLifecycle.

Section SingleRequest.

Implicit Types (w : World).

(** C5. In every reachable state at most one request is in flight; the
    mounted component is loading exactly while one is, and while it is
    loading the submit control is disabled, so no second request can
    start before the first has settled. *)
Theorem at_most_one_request_in_flight w :
  reachable w ->
  inFlight w <= 1 /\
  (mounted w = true -> (loading (status w) = true <-> inFlight w = 1)) /\
  (loading (status w) = true ->
     submitDisabled w = true /\ enabled Submit w = false) /\
  (forall e, enabled e w = true -> inFlight (step e w) <= 1).
Proof.
  intros Hw. destruct (singleFlight_reachable w Hw) as (Hle & Hiff & _).
  split; [exact Hle|]. split; [exact Hiff|]. split.
  - intros Hl. unfold enabled, submitDisabled. rewrite Hl.
    by destruct (mounted w).
  - intros e En.
    by destruct (singleFlight_reachable _ (reachable_step e w Hw En)) as [? _].
Qed.

Lemma at_most_one_request_in_flight_witness :
  let w := step Submit initialWorld in
  inFlight w <= 1 /\
  (mounted w = true -> (loading (status w) = true <-> inFlight w = 1)) /\
  (loading (status w) = true ->
     submitDisabled w = true /\ enabled Submit w = false) /\
  (forall e, enabled e w = true -> inFlight (step e w) <= 1).
Proof.
  apply (at_most_one_request_in_flight (step Submit initialWorld)).
  exists [Submit]. vm_compute. reflexivity.
Defined.

End SingleRequest.

Section ObjectUrls.

Implicit Types (w : World) (u : ObjectURL).

(** Once the component is unmounted nothing is revoked any more. *)
Lemma unmounted_run es w w' :
  mounted w = false -> run es w = Some w' ->
  mounted w' = false /\ forall u, revocations u w' = revocations u w.
Proof.
  revert w. induction es as [|e es IH]; simpl; intros w Hm Hrun.
  - injection Hrun as <-. done.
  - destruct (enabled e w) eqn:En; [|done].
    destruct (enabled_mounted e w En) as [?|[o ->]]; [congruence|].
    rewrite step_settle_unmounted' in Hrun by done.
    destruct (tryBody o); apply IH in Hrun as [Hm' Hr]; try done;
      (split; [done|]); intros u; rewrite Hr; unfold revocations; simpl;
      rewrite ?countRevoked_app; simpl; lia.
Qed.

(** C3. In every execution no object URL is revoked twice. While the
    component is mounted every URL created so far has been revoked
    exactly once, except the one on display, which has not been revoked;
    so when a new submit succeeds and when the component is torn down,
    every URL created before has been released exactly once, and stays
    so whatever happens afterwards. *)
Theorem object_urls_released_exactly_once w :
  reachable w ->
  (forall u, revocations u w <= 1) /\
  (forall u, 0 < revocations u w -> Created u ∈ log w) /\
  (mounted w = true -> forall u, Created u ∈ log w ->
     revocations u w = if decide (qrUrl (status w) = Some u) then 0 else 1) /\
  (mounted w = true -> forall imageBlob u, Created u ∈ log w ->
     let w' := step (Settle (Responded true (inr imageBlob))) w in
     qrUrl (status w') = Some (nextUrl w) /\ u <> nextUrl w /\
     revocations u w' = 1) /\
  (mounted w = true -> forall es w' u, Created u ∈ log w ->
     run (Unmount :: es) w = Some w' -> revocations u w' = 1).
Proof.
  intros Hw. destruct (urlsAccounted_reachable w Hw) as [Hs Ha].
  pose proof Ha as (Hc & Hfresh & Hle & Hq & Hacc).
  unfold revocations.
  split; [exact Hle|]. split; [|split; [|split]].
  - intros u Hu. apply Hc. destruct (decide (u < nextUrl w)); [done|].
    rewrite (Hfresh u) in Hu by lia. lia.
  - intros Hm u Hu. apply Hacc; [done|]. by apply Hc.
  - intros Hm imageBlob u Hu. apply Hc in Hu.
    rewrite (step_settle_success' w (Responded true (inr imageBlob))
               imageBlob Hm eq_refl). simpl.
    split; [done|]. split; [lia|].
    + rewrite Hm in Ha. rewrite (Hs Hm).
      destruct (accounted_create _ _ _ [StatusSet
        {| loading := false; qrUrl := Some (nextUrl w); error := None |}] Ha)
        as (_ & _ & _ & _ & Hnew).
      { intros a Ha'. apply list_elem_of_singleton in Ha' as ->. done. }
      specialize (Hnew eq_refl u ltac:(lia)). simpl in Hnew. rewrite Hnew.
      destruct (decide (Some (nextUrl w) = Some u)) as [Heq|_]; [|done].
      injection Heq. lia.
  - intros Hm es w' u Hu Hrun. apply Hc in Hu. simpl in Hrun.
    rewrite Hm in Hrun.
    apply unmounted_run in Hrun as [_ Hr]; [|by rewrite step_unmount].
    unfold revocations in Hr. rewrite Hr, step_unmount. simpl.
    rewrite Hm in Ha. rewrite (Hs Hm).
    by apply (accounted_unmount _ _ _ Ha).
Qed.

Lemma object_urls_released_exactly_once_witness :
  let w := step (Settle (Responded true (inr [])))
             (step Submit initialWorld) in
  (forall u, revocations u w <= 1) /\
  (forall u, 0 < revocations u w -> Created u ∈ log w) /\
  (mounted w = true -> forall u, Created u ∈ log w ->
     revocations u w = if decide (qrUrl (status w) = Some u) then 0 else 1) /\
  (mounted w = true -> forall imageBlob u, Created u ∈ log w ->
     let w' := step (Settle (Responded true (inr imageBlob))) w in
     qrUrl (status w') = Some (nextUrl w) /\ u <> nextUrl w /\
     revocations u w' = 1) /\
  (mounted w = true -> forall es w' u, Created u ∈ log w ->
     run (Unmount :: es) w = Some w' -> revocations u w' = 1).
Proof.
  apply (object_urls_released_exactly_once
           (step (Settle (Responded true (inr []))) (step Submit initialWorld))).
  exists [Submit; Settle (Responded true (inr []))]. vm_compute. reflexivity.
Defined.

(** Outside the claims: a response that arrives after the component was
    unmounted still creates an object URL, and nothing revokes it. *)
Remark late_response_leaks :
  exists w,
    run [Submit; Unmount; Settle (Responded true (inr []))] initialWorld = Some w /\
    Created 0 ∈ log w /\ revocations 0 w = 0 /\ mounted w = false.
Proof.
  eexists. split; [vm_compute; reflexivity|]. simpl.
  split; [|done]. rewrite !elem_of_cons. tauto.
Qed.

End ObjectUrls.

Section FieldUpdates.

Implicit Types (w : World) (c : Control) (v : jsstring).



(** C4, as amended. An edit of a numeric field (size, margin): the empty
    string stores the empty sentinel, which is not 0; the decimal numeral
    of an integer stores the double nearest to it, which is that integer
    whenever its magnitude is at most 2^53; more generally a string that
    [parseInt] can read stores what it reads; a non-empty string without
    a leading integer leaves [config] as it was. *)
Theorem numeric_edit_coercion w c :
  mounted w = true -> c = Size \/ c = Margin ->
  let stored v := config (step (Change c v) w) in
  stored [] = <[control_name c := emptySentinel]> (config w) /\
  emptySentinel <> VNumber (Finite 0) /\
  (forall z, (Z.abs z <= 2 ^ 53)%Z ->
     stored (decimal z) = <[control_name c := VNumber (Finite z)]> (config w)) /\
  (forall z,
     stored (decimal z) = <[control_name c := VNumber (ofInteger z)]> (config w)) /\
  (forall v, v <> [] -> parseInt v <> NaN ->
     stored v = <[control_name c := VNumber (parseInt v)]> (config w)) /\
  (forall v, v <> [] -> nonNumeric v -> stored v = config w).
Proof.
  intros Hm Hc stored.
  assert (Hstored : forall v, stored v =
    if decide (v = []) then <[control_name c := emptySentinel]> (config w)
    else match parseInt v with
         | NaN => config w
         | n => <[control_name c := VNumber n]> (config w)
         end).
  { intros v. unfold stored. rewrite config_change by done.
    by destruct Hc as [->| ->]. }
  assert (Hparsed : forall v, v <> [] -> parseInt v <> NaN ->
    stored v = <[control_name c := VNumber (parseInt v)]> (config w)).
  { intros v Hv Hn. rewrite Hstored. destruct (decide (v = [])); [done|].
    by destruct (parseInt v). }
  assert (Hdec : forall z, decimal z <> []).
  { intros [|p|p]; [done|..]; unfold decimal; simpl.
    - pose proof (DecimalPos.Unsigned.to_uint_nonnil p).
      by destruct (Pos.to_uint p).
    - done. }
  assert (Hnearest : forall z,
    stored (decimal z) = <[control_name c := VNumber (ofInteger z)]> (config w)).
  { intros z. rewrite Hparsed, parseInt_decimal; [done|apply Hdec|].
    rewrite parseInt_decimal. apply ofInteger_not_NaN. }
  split; [by rewrite Hstored|]. split; [done|].
  split; [|split; [done|split; [done|]]].
  - intros z Hz. by rewrite Hnearest, ofInteger_exact.
  - intros v Hv Hn. rewrite Hstored. destruct (decide (v = [])); [done|].
    apply parseInt_NaN_iff in Hn. by rewrite Hn.
Qed.

Lemma numeric_edit_coercion_witness :
  let w := initialWorld in
  let c := Size in
  let stored v := config (step (Change c v) w) in
  stored [] = <[control_name c := emptySentinel]> (config w) /\
  emptySentinel <> VNumber (Finite 0) /\
  (forall z, (Z.abs z <= 2 ^ 53)%Z ->
     stored (decimal z) = <[control_name c := VNumber (Finite z)]> (config w)) /\
  (forall z,
     stored (decimal z) = <[control_name c := VNumber (ofInteger z)]> (config w)) /\
  (forall v, v <> [] -> parseInt v <> NaN ->
     stored v = <[control_name c := VNumber (parseInt v)]> (config w)) /\
  (forall v, v <> [] -> nonNumeric v -> stored v = config w).
Proof.
  apply (numeric_edit_coercion initialWorld Size).
  - reflexivity.
  - left. reflexivity.
Defined.

(** C4, as stated, fails: the numeral of 2^53 + 1 typed into the size
    field is a parseable integer string, but the number stored is 2^53. *)
Lemma large_integer_is_not_stored_exactly :
  decimal 9007199254740993 = lit "9007199254740993" /\
  config (step (Change Size (lit "9007199254740993")) initialWorld) !! lit "size"
    = Some (VNumber (Finite 9007199254740992)) /\
  config (step (Change Size (lit "9007199254740993")) initialWorld) !! lit "size"
    <> Some (VNumber (Finite 9007199254740993)).
Proof.
  split; [vm_compute; reflexivity|].
  assert (H : config (step (Change Size (lit "9007199254740993")) initialWorld)
                !! lit "size" = Some (VNumber (Finite 9007199254740992)))
    by (vm_compute; reflexivity).
  split; [exact H|]. rewrite H. discriminate.
Qed.

End FieldUpdates.

Section RequestContract.

Implicit Types (w : World) (r : Request).




End RequestContract.

(** * End-to-end scenarios *)

Section Scenarios.

(** Scenario A: a valid submit answered by a 200 with an image. *)
Example scenario_success :
  exists w,
    run [Change Content (lit "hello"); Submit; Settle (Responded true (inr []))]
        initialWorld = Some w /\
    status w = {| loading := false; qrUrl := Some 0; error := None |} /\
    length (requests w) = 1.
Proof. eexists. split; [vm_compute; reflexivity|]. by split. Qed.

(** Scenario B: an empty text is rejected without a request. *)
Example scenario_empty_text :
  exists w,
    run [Change Content []; Submit] initialWorld = Some w /\
    error (status w) = Some (lit "Please enter some content first.") /\
    requests w = [].
Proof. eexists. split; [vm_compute; reflexivity|]. by split. Qed.

(** Scenario C: a valid submit answered by a 500. *)
Example scenario_server_error :
  exists w,
    run [Submit; Settle (Responded false (inr []))] initialWorld = Some w /\
    status w = {| loading := false; qrUrl := None;
                  error := Some (lit "Server error. Is the Python backend running?") |}.
Proof. eexists. split; [vm_compute; reflexivity|]. done. Qed.

(** Generating a second code releases the first one, once. *)
Example scenario_regenerate :
  exists w,
    run [Submit; Settle (Responded true (inr []));
         Submit; Settle (Responded true (inr []))] initialWorld = Some w /\
    qrUrl (status w) = Some 1 /\ revocations 0 w = 1 /\ revocations 1 w = 0.
Proof. eexists. split; [vm_compute; reflexivity|]. by repeat split. Qed.

(** While a request is pending the form cannot be submitted again. *)
Example scenario_double_submit : run [Submit; Submit] initialWorld = None.
Proof. reflexivity. Qed.

(** [parseInt] reads a leading integer and ignores the rest. *)
Example parseInt_prefix :
  parseInt (lit "12px") = Finite 12 /\ parseInt (lit " -7.5") = Finite (-7) /\
  parseInt (lit "abc") = NaN /\ parseInt (lit ".5") = NaN.
Proof. vm_compute. by repeat split. Qed.

End Scenarios.

(** * Further properties of the component *)

Section StateShapes.

Implicit Types (w : World) (e : Event).

Lemma statusShape_step e w :
  statusShape (status w) -> enabled e w = true -> statusShape (status (step e w)).
Proof.
  intros [Hl Hb] En. destruct (mounted w) eqn:Hm.
  - assert (Hidle : e = Submit -> loading (status w) = false).
    { intros ->. simpl in En. rewrite Hm in En. by apply negb_true_iff in En. }
    destruct e as [c v| |o|].
    + by rewrite step_change.
    + specialize (Hidle eq_refl).
      destruct (config w !! lit "text") as [[text|?]|] eqn:Et.
      * destruct (decide (trim text = [])) as [He|He].
        -- rewrite (step_submit_invalid' w text Hm Et He). simpl.
           split; simpl; [congruence|]. by intros u message _ [= <-].
        -- rewrite (step_submit_valid' w text Hm Et He). by split.
      * rewrite (step_submit_untyped' w Hm) by (intros ?; congruence). by split.
      * rewrite (step_submit_untyped' w Hm) by (intros ?; congruence). by split.
    + destruct (tryBody o) as [err|blob] eqn:Eo.
      * rewrite (step_settle_failure' w o err Hm Eo). by split.
      * rewrite (step_settle_success' w o blob Hm Eo). by split.
    + rewrite step_unmount. by split.
  - destruct (enabled_mounted e w En) as [?|[o ->]]; [congruence|].
    rewrite step_settle_unmounted' by done. by destruct (tryBody o).
Qed.

Lemma statusShape_reachable w : reachable w -> statusShape (status w).
Proof.
  apply (reachable_invariant (fun w => statusShape (status w))).
  - by split.
  - apply statusShape_step.
Qed.

(** X1. In every reachable state [config] has the shape of
    [interface QRConfig]: exactly the five properties, text, color and
    background strings, size and margin a number or the empty sentinel.
    NaN is never stored, and [config.text] is always a string, so
    [config.text.trim()] cannot throw. *)
Theorem config_keeps_its_interface w :
  reachable w ->
  wellTyped (config w) /\
  (exists text, config w !! lit "text" = Some (VString text)) /\
  (forall k, config w !! k <> Some (VNumber NaN)) /\
  (forall k, is_Some (config w !! k) <-> k ∈ configKeys).
Proof.
  intros Hw. destruct (configTyped_reachable w Hw) as [Hty _].
  split; [exact Hty|]. destruct Hty as (Hdom & Ht & Hs & Hc & Hb & Hm).
  split; [exact Ht|]. split.
  - intros k Hk.
    assert (Hin : k ∈ configKeys) by (rewrite <- Hdom; apply elem_of_dom; eauto).
    unfold configKeys in Hin. rewrite !elem_of_union, !elem_of_singleton in Hin.
    destruct Hin as [[[[->| ->]| ->]| ->]| ->]; rewrite Hk in *.
    + by destruct Ht as [? [=]].
    + destruct Hs as [[=]|(n & [= <-] & Hn)]. done.
    + by destruct Hc as [? [=]].
    + by destruct Hb as [? [=]].
    + destruct Hm as [[=]|(n & [= <-] & Hn)]. done.
  - intros k. by rewrite <- elem_of_dom, Hdom.
Qed.

Lemma config_keeps_its_interface_witness :
  let w := step (Change Size (lit "abc")) (step (Change Margin []) initialWorld) in
  wellTyped (config w) /\
  (exists text, config w !! lit "text" = Some (VString text)) /\
  (forall k, config w !! k <> Some (VNumber NaN)) /\
  (forall k, is_Some (config w !! k) <-> k ∈ configKeys).
Proof.
  apply (config_keeps_its_interface
           (step (Change Size (lit "abc")) (step (Change Margin []) initialWorld))).
  exists [Change Margin []; Change Size (lit "abc")]. vm_compute. reflexivity.
Defined.

(** X2. The status of every reachable state is idle, pending, succeeded or
    failed: while loading it holds neither a handle nor an error, and a
    handle and an error are held together only after a submit with a blank
    text, the error then being the validation message. *)
Theorem status_is_one_of_four w :
  reachable w ->
  (loading (status w) = true ->
     status w = {| loading := true; qrUrl := None; error := None |}) /\
  (forall u message,
     qrUrl (status w) = Some u -> error (status w) = Some message ->
     message = lit "Please enter some content first.").
Proof.
  intros Hw. destruct (statusShape_reachable w Hw) as [Hl Hb]. split; [|exact Hb].
  intros Hload. destruct (Hl Hload) as [Hq He].
  destruct (status w) as [l q er]; simpl in *. by subst.
Qed.

Lemma status_is_one_of_four_witness :
  let w := step Submit (step (Change Content [])
             (step (Settle (Responded true (inr []))) (step Submit initialWorld))) in
  (loading (status w) = true ->
     status w = {| loading := true; qrUrl := None; error := None |}) /\
  (forall u message,
     qrUrl (status w) = Some u -> error (status w) = Some message ->
     message = lit "Please enter some content first.").
Proof.
  apply (status_is_one_of_four
    (step Submit (step (Change Content [])
       (step (Settle (Responded true (inr []))) (step Submit initialWorld))))).
  exists [Submit; Settle (Responded true (inr [])); Change Content []; Submit].
  vm_compute. reflexivity.
Defined.

End StateShapes.

Section Edits.

Implicit Types (w : World) (c : Control) (v : jsstring).

Lemma control_name_inj c c' : control_name c = control_name c' -> c = c'.
Proof. destruct c, c'; intros H; vm_compute in H; by try discriminate H. Qed.

Lemma config_change_coercion w c v :
  mounted w = true ->
  config (step (Change c v) w) =
    match coercion c v with
    | Some x => <[control_name c := x]> (config w)
    | None => config w
    end.
Proof.
  intros Hm. rewrite config_change by done. unfold coercion.
  destruct c; try done; destruct (decide (v = [])); try done;
    by destruct (parseInt v).
Qed.

(** In a reachable state an edit leaves everything but [config] alone. *)
Lemma step_change_synced w c v :
  mounted w = true -> effectUrl w = qrUrl (status w) ->
  step (Change c v) w =
    mkWorld (match coercion c v with
             | Some x => <[control_name c := x]> (config w)
             | None => config w
             end)
            (status w) true (effectUrl w) (inFlight w) (nextUrl w) (log w).
Proof.
  intros Hm Hs. rewrite step_change, config_change_coercion by done.
  rewrite Hs. unfold released.
  destruct (decide (qrUrl (status w) = qrUrl (status w))); [|done].
  by rewrite app_nil_r.
Qed.

(** X3. An edit of any control, numeric or not, changes nothing but the
    property of that control: the status, the other properties, the log
    of requests and object URLs and the request in flight are as before. *)
Theorem edit_changes_only_its_property w c v :
  reachable w -> mounted w = true ->
  let w' := step (Change c v) w in
  status w' = status w /\ log w' = log w /\ inFlight w' = inFlight w /\
  nextUrl w' = nextUrl w /\ mounted w' = true /\
  (forall k, k <> control_name c -> config w' !! k = config w !! k) /\
  config w' !! control_name c =
    match coercion c v with
    | Some x => Some x
    | None => config w !! control_name c
    end.
Proof.
  intros Hw Hm. simpl.
  rewrite (step_change_synced w c v Hm (synced_reachable w Hw Hm)). simpl.
  repeat split.
  - intros k Hk. destruct (coercion c v); [by rewrite lookup_insert_ne|done].
  - destruct (coercion c v); [by rewrite lookup_insert_eq|done].
Qed.

Lemma edit_changes_only_its_property_witness :
  let w := step Submit initialWorld in
  let w' := step (Change Size (lit "250")) w in
  status w' = status w /\ log w' = log w /\ inFlight w' = inFlight w /\
  nextUrl w' = nextUrl w /\ mounted w' = true /\
  (forall k, k <> control_name Size -> config w' !! k = config w !! k) /\
  config w' !! control_name Size =
    match coercion Size (lit "250") with
    | Some x => Some x
    | None => config w !! control_name Size
    end.
Proof.
  apply (edit_changes_only_its_property (step Submit initialWorld) Size (lit "250")).
  - exists [Submit]. vm_compute. reflexivity.
  - reflexivity.
Defined.

(** X4. Edits of different controls commute, and of two edits of the same
    control the later one wins whenever it stores anything (an edit of a
    numeric field that [parseInt] cannot read stores nothing and leaves
    the earlier one in place). *)
Theorem edits_compose w c1 v1 c2 v2 :
  reachable w -> mounted w = true ->
  (c1 <> c2 ->
     step (Change c1 v1) (step (Change c2 v2) w)
     = step (Change c2 v2) (step (Change c1 v1) w)) /\
  (c1 = c2 ->
     step (Change c2 v2) (step (Change c1 v1) w)
     = match coercion c2 v2 with
       | Some _ => step (Change c2 v2) w
       | None => step (Change c1 v1) w
       end).
Proof.
  intros Hw Hm. pose proof (synced_reachable w Hw Hm) as Hs.
  rewrite !(step_change_synced w _ _ Hm Hs).
  rewrite !step_change_synced by done. simpl. split.
  - intros Hne.
    assert (control_name c1 <> control_name c2)
      by (intros H; by apply control_name_inj in H).
    destruct (coercion c1 v1), (coercion c2 v2); try done.
    by rewrite insert_insert_ne.
  - intros ->. destruct (coercion c2 v1), (coercion c2 v2); try done.
    by rewrite insert_insert_eq.
Qed.

Lemma edits_compose_witness :
  let w := initialWorld in
  let c1 := Size in let v1 := lit "120" in
  let c2 := Foreground in let v2 := lit "#112233" in
  (c1 <> c2 ->
     step (Change c1 v1) (step (Change c2 v2) w)
     = step (Change c2 v2) (step (Change c1 v1) w)) /\
  (c1 = c2 ->
     step (Change c2 v2) (step (Change c1 v1) w)
     = match coercion c2 v2 with
       | Some _ => step (Change c2 v2) w
       | None => step (Change c1 v1) w
       end).
Proof.
  apply (edits_compose initialWorld Size (lit "120") Foreground (lit "#112233")).
  - exists []. reflexivity.
  - reflexivity.
Defined.

(** X5. An edit made while a request is pending does not reach that
    request: the requests sent are as before, and the edit and the
    settling of the request commute. *)
Theorem edit_commutes_with_settle w c v o :
  reachable w -> mounted w = true ->
  requests (step (Change c v) w) = requests w /\
  step (Settle o) (step (Change c v) w) = step (Change c v) (step (Settle o) w).
Proof.
  intros Hw Hm. pose proof (synced_reachable w Hw Hm) as Hs.
  rewrite (step_change_synced w c v Hm Hs). split; [done|].
  destruct (tryBody o) as [err|blob] eqn:Eo.
  - rewrite (step_settle_failure' w o err Hm Eo).
    rewrite (step_settle_failure' _ o err) by done.
    by rewrite step_change_synced.
  - rewrite (step_settle_success' w o blob Hm Eo).
    rewrite (step_settle_success' _ o blob) by done.
    by rewrite step_change_synced.
Qed.

Lemma edit_commutes_with_settle_witness :
  let w := step Submit initialWorld in
  let c := Content in let v := lit "changed my mind" in
  let o := Responded true (inr []) in
  requests (step (Change c v) w) = requests w /\
  step (Settle o) (step (Change c v) w) = step (Change c v) (step (Settle o) w).
Proof.
  apply (edit_commutes_with_settle (step Submit initialWorld) Content
           (lit "changed my mind") (Responded true (inr []))).
  - exists [Submit]. vm_compute. reflexivity.
  - reflexivity.
Defined.

End Edits.

Section Rendering.

Implicit Types (w : World) (c : Control) (v : jsstring) (u : ObjectURL).

(** X6. The image on display is always usable: its object URL has been
    created and has not been revoked, the download link points to the same
    URL and suggests the file name "qrcode.png", and the background style
    is the current [config.background]. *)
Theorem shown_image_is_live w u bg h d :
  reachable w -> mounted w = true ->
  preview (view w) = QRImage u bg h d ->
  Created u ∈ log w /\ revocations u w = 0 /\
  h = u /\ d = lit "qrcode.png" /\ bg = config w !! lit "background".
Proof.
  intros Hw Hm Hv.
  destruct (urlsAccounted_reachable w Hw) as (_ & Hc & _ & _ & Hq & Hacc).
  unfold view, render in Hv. simpl in Hv.
  destruct (qrUrl (status w)) as [u'|] eqn:Eq; [|done].
  injection Hv as -> <- <- <-. specialize (Hq u eq_refl).
  split; [by apply Hc|]. split; [|done].
  unfold revocations. rewrite (Hacc Hm u Hq).
  by destruct (decide (Some u = Some u)).
Qed.

Lemma shown_image_is_live_witness :
  let w := step (Settle (Responded true (inr []))) (step Submit initialWorld) in
  Created 0 ∈ log w /\ revocations 0 w = 0 /\
  0 = 0 /\ lit "qrcode.png" = lit "qrcode.png" /\
  Some (VString (lit "#ffffff")) = config w !! lit "background".
Proof.
  apply (shown_image_is_live
           (step (Settle (Responded true (inr []))) (step Submit initialWorld))
           0 (Some (VString (lit "#ffffff"))) 0 (lit "qrcode.png")).
  - exists [Submit; Settle (Responded true (inr []))]. vm_compute. reflexivity.
  - reflexivity.
  - vm_compute. reflexivity.
Defined.

(** X7. What the user sees follows the request: the button is disabled
    exactly while a request is in flight; during that time it reads
    "Generating...", no error is shown and the preview is the ready note;
    otherwise it reads "Generate QR Code" and the form can be submitted. *)
Theorem button_follows_request w :
  reachable w -> mounted w = true ->
  (buttonDisabled (view w) = true <-> inFlight w = 1) /\
  (inFlight w = 1 ->
     buttonLabel (view w) = lit "Generating..." /\
     errorNote (view w) = None /\ preview (view w) = ReadyNote) /\
  (inFlight w = 0 ->
     buttonLabel (view w) = lit "Generate QR Code" /\ enabled Submit w = true).
Proof.
  intros Hw Hm. destruct (singleFlight_reachable w Hw) as (Hle & Hiff & _).
  destruct (statusShape_reachable w Hw) as [Hl _]. specialize (Hiff Hm).
  unfold view, render, enabled, submitDisabled. simpl.
  split; [exact Hiff|]. split.
  - intros Hf. apply Hiff in Hf. destruct (Hl Hf) as [-> ->]. by rewrite Hf.
  - intros Hf. destruct (loading (status w)) eqn:El.
    + destruct Hiff as [Hiff _]. specialize (Hiff eq_refl). lia.
    + by rewrite Hm.
Qed.

Lemma button_follows_request_witness :
  let w := step Submit initialWorld in
  (buttonDisabled (view w) = true <-> inFlight w = 1) /\
  (inFlight w = 1 ->
     buttonLabel (view w) = lit "Generating..." /\
     errorNote (view w) = None /\ preview (view w) = ReadyNote) /\
  (inFlight w = 0 ->
     buttonLabel (view w) = lit "Generate QR Code" /\ enabled Submit w = true).
Proof.
  apply (button_follows_request (step Submit initialWorld)).
  - exists [Submit]. vm_compute. reflexivity.
  - reflexivity.
Defined.

(** X8. Editing the form does not regenerate or discard the result: after
    an edit the same image is shown (same URL, still not revoked) with the
    same error note and button, although [config] may no longer be the one
    the image was made from; only the background style of the image
    follows [config.background]. The edited control shows what the edit
    stored, the other controls what they showed before. *)
Theorem edit_keeps_preview w c v :
  reachable w -> mounted w = true ->
  let w' := step (Change c v) w in
  buttonDisabled (view w') = buttonDisabled (view w) /\
  buttonLabel (view w') = buttonLabel (view w) /\
  errorNote (view w') = errorNote (view w) /\
  preview (view w') =
    match preview (view w) with
    | QRImage u _ h d => QRImage u (backgroundValue (view w')) h d
    | ReadyNote => ReadyNote
    end /\
  (forall u, revocations u w' = revocations u w) /\
  (forall c', c' <> c -> valueOf c' (view w') = valueOf c' (view w)) /\
  valueOf c (view w') =
    match coercion c v with
    | Some x => Some x
    | None => valueOf c (view w)
    end.
Proof.
  intros Hw Hm. simpl.
  rewrite (step_change_synced w c v Hm (synced_reachable w Hw Hm)).
  unfold view, revocations. simpl.
  split; [done|]. split; [done|]. split; [done|].
  split; [by destruct (qrUrl (status w))|]. split; [done|].
  assert (Hval : forall c' (cfg : QRConfig),
    valueOf c' (render cfg (status w)) = cfg !! control_name c')
    by (by intros []).
  split.
  - intros c' Hne.
    assert (control_name c <> control_name c')
      by (intros H; by apply control_name_inj in H).
    rewrite !(Hval c'). destruct (coercion c v); [by rewrite lookup_insert_ne|done].
  - rewrite !(Hval c). destruct (coercion c v); [by rewrite lookup_insert_eq|done].
Qed.

Lemma edit_keeps_preview_witness :
  let w := step (Settle (Responded true (inr []))) (step Submit initialWorld) in
  let c := Background in let v := lit "#00ff00" in
  let w' := step (Change c v) w in
  buttonDisabled (view w') = buttonDisabled (view w) /\
  buttonLabel (view w') = buttonLabel (view w) /\
  errorNote (view w') = errorNote (view w) /\
  preview (view w') =
    match preview (view w) with
    | QRImage u _ h d => QRImage u (backgroundValue (view w')) h d
    | ReadyNote => ReadyNote
    end /\
  (forall u, revocations u w' = revocations u w) /\
  (forall c', c' <> c -> valueOf c' (view w') = valueOf c' (view w)) /\
  valueOf c (view w') =
    match coercion c v with
    | Some x => Some x
    | None => valueOf c (view w)
    end.
Proof.
  apply (edit_keeps_preview
           (step (Settle (Responded true (inr []))) (step Submit initialWorld))
           Background (lit "#00ff00")).
  - exists [Submit; Settle (Responded true (inr []))]. vm_compute. reflexivity.
  - reflexivity.
Defined.

End Rendering.

Section Results.

Implicit Types (w : World) (u : ObjectURL) (o : Outcome).

(** X9. Submitting again gives up the result on display at once: as soon
    as a valid submit starts, the preview is back to the ready note and
    the object URL of the old image has been revoked, before any response;
    if the new request then fails, neither the old nor a new image is
    shown. *)
Theorem resubmit_discards_result w text u :
  reachable w -> mounted w = true ->
  config w !! lit "text" = Some (VString text) -> trim text <> [] ->
  qrUrl (status w) = Some u ->
  preview (view (step Submit w)) = ReadyNote /\
  revocations u (step Submit w) = 1 /\
  forall o err, tryBody o = inl err ->
    preview (view (step (Settle o) (step Submit w))) = ReadyNote /\
    revocations u (step (Settle o) (step Submit w)) = 1.
Proof.
  intros Hw Hm Ht He Hu.
  destruct (urlsAccounted_reachable w Hw) as (Hs & _ & _ & _ & Hq & Hacc).
  assert (Hzero : countRevoked u (log w) = 0).
  { rewrite (Hacc Hm u (Hq u Hu)), Hu. by destruct (decide (Some u = Some u)). }
  rewrite (step_submit_valid' w text Hm Ht He). rewrite (Hs Hm), Hu.
  unfold view, revocations. simpl.
  assert (Hone : countRevoked u
    (log w ++ StatusSet {| loading := true; qrUrl := None; error := None |}
           :: Fetched (qrRequest (config w)) :: released (Some u) None) = 1).
  { rewrite countRevoked_app, Hzero. simpl. by destruct (decide (u = u)). }
  split; [done|]. split; [exact Hone|].
  intros o err Eo. rewrite (step_settle_failure' _ o err) by done. simpl.
  split; [done|]. by rewrite countRevoked_app, Hone.
Qed.

Lemma resubmit_discards_result_witness :
  let w := step (Settle (Responded true (inr []))) (step Submit initialWorld) in
  preview (view (step Submit w)) = ReadyNote /\
  revocations 0 (step Submit w) = 1 /\
  forall o err, tryBody o = inl err ->
    preview (view (step (Settle o) (step Submit w))) = ReadyNote /\
    revocations 0 (step (Settle o) (step Submit w)) = 1.
Proof.
  apply (resubmit_discards_result
           (step (Settle (Responded true (inr []))) (step Submit initialWorld))
           (lit "https://example.com") 0).
  - exists [Submit; Settle (Responded true (inr []))]. vm_compute. reflexivity.
  - reflexivity.
  - vm_compute. reflexivity.
  - vm_compute. discriminate.
  - reflexivity.
Defined.

(** X10. After a failed request the error note shows the stored message
    unless that message is the empty string: an Error without a message
    fails silently, with no note and no image. A response that is not 2xx
    always shows the server message. The button is enabled again. *)
Theorem failure_note w o err :
  mounted w = true -> tryBody o = inl err ->
  let v := view (step (Settle o) w) in
  errorNote v = (if decide (errorMessage err = []) then None
                 else Some (errorMessage err)) /\
  preview v = ReadyNote /\ buttonDisabled v = false /\
  (forall b, o = Responded false b ->
     errorNote v = Some (lit "Server error. Is the Python backend running?")).
Proof.
  intros Hm Eo. rewrite (step_settle_failure' w o err Hm Eo).
  unfold view. simpl. split; [|split; [done|split; [done|]]].
  - destruct (errorMessage err); by destruct (decide _).
  - intros b ->. simpl in Eo. by injection Eo as <-.
Qed.

Lemma failure_note_witness :
  let w := step Submit initialWorld in
  let o := FetchRejected (ErrorObject []) in
  let err := ErrorObject [] in
  let v := view (step (Settle o) w) in
  errorNote v = (if decide (errorMessage err = []) then None
                 else Some (errorMessage err)) /\
  preview v = ReadyNote /\ buttonDisabled v = false /\
  (forall b, o = Responded false b ->
     errorNote v = Some (lit "Server error. Is the Python backend running?")).
Proof.
  apply (failure_note (step Submit initialWorld)
           (FetchRejected (ErrorObject [])) (ErrorObject [])).
  - reflexivity.
  - reflexivity.
Defined.

(** After unmounting nothing is stored, sent or revoked; only the log of
    created object URLs can grow. *)
Lemma unmounted_run_frozen es w w' :
  mounted w = false -> run es w = Some w' ->
  status w' = status w /\ config w' = config w /\ requests w' = requests w /\
  forall a, a ∈ log w -> a ∈ log w'.
Proof.
  revert w. induction es as [|e es IH]; simpl; intros w Hm Hrun.
  - by injection Hrun as <-.
  - destruct (enabled e w) eqn:En; [|done].
    destruct (enabled_mounted e w En) as [?|[o ->]]; [congruence|].
    rewrite step_settle_unmounted' in Hrun by done.
    destruct (tryBody o); apply IH in Hrun as (Hs & Hc & Hr & Hl); try done;
      simpl in *; unfold requests in *; simpl in *.
    + rewrite fetchedIn_app in Hr. simpl in Hr. rewrite app_nil_r in Hr.
      repeat split; try done. intros a Ha. apply Hl, elem_of_app. by left.
Qed.

(** X13. A response that succeeds after the component was unmounted still
    makes the handler create an object URL; the state update is dropped,
    so that URL is held nowhere, and it is never revoked, whatever happens
    later. *)
Theorem late_response_is_never_released w o imageBlob es w' :
  reachable w -> mounted w = false ->
  tryBody o = inr imageBlob ->
  run (Settle o :: es) w = Some w' ->
  Created (nextUrl w) ∈ log w' /\
  revocations (nextUrl w) w' = 0 /\
  status w' = status w /\
  qrUrl (status w') <> Some (nextUrl w).
Proof.
  intros Hw Hm Eo Hrun.
  destruct (urlsAccounted_reachable w Hw) as (_ & _ & Hfresh & _ & Hq & _).
  change (run (Settle o :: es) w)
    with (if enabled (Settle o) w then run es (step (Settle o) w) else None)
    in Hrun.
  destruct (enabled (Settle o) w); [|done].
  rewrite step_settle_unmounted', Eo in Hrun by done.
  pose proof Hrun as Hrun'.
  apply unmounted_run in Hrun as [_ Hr]; [|done].
  apply unmounted_run_frozen in Hrun' as (Hs & _ & _ & Hl); [|done].
  simpl in *. split; [apply Hl, elem_of_app; right; by left|].
  split.
  - rewrite Hr. unfold revocations. simpl. rewrite countRevoked_app. simpl.
    rewrite (Hfresh (nextUrl w)) by lia. done.
  - split; [done|]. rewrite Hs. intros H. apply Hq in H. lia.
Qed.

Lemma late_response_is_never_released_witness :
  let w := step Unmount (step Submit initialWorld) in
  let o := Responded true (inr []) in
  Created (nextUrl w) ∈ log (step (Settle o) w) /\
  revocations (nextUrl w) (step (Settle o) w) = 0 /\
  status (step (Settle o) w) = status w /\
  qrUrl (status (step (Settle o) w)) <> Some (nextUrl w).
Proof.
  apply (late_response_is_never_released
           (step Unmount (step Submit initialWorld))
           (Responded true (inr [])) [] []).
  - exists [Submit; Unmount]. vm_compute. reflexivity.
  - reflexivity.
  - reflexivity.
  - vm_compute. reflexivity.
Defined.

End Results.

Section Payload.

Implicit Types (w : World) (cfg : QRConfig).

Lemma serialized_string_inj (a b : option value) :
  isString a -> isString b ->
  serializeProperty <$> a = serializeProperty <$> b -> a = b.
Proof. intros [s ->] [s' ->]. simpl. by intros [= ->]. Qed.

Lemma serialized_number_inj (a b : option value) :
  isNumberOrEmpty a -> isNumberOrEmpty b ->
  serializeProperty <$> a <> Some JNull ->
  serializeProperty <$> a = serializeProperty <$> b -> a = b.
Proof.
  intros [->|(n & -> & Hn)] [->|(n' & -> & Hn')]; simpl; try done.
  - by destruct n'.
  - by destruct n.
  - destruct n, n'; simpl; try done. by intros _ [= ->].
Qed.

(** X11. The body of the request loses nothing: two reachable states
    whose requests would carry the same body, with no [null] member, have
    the same [config]. An emptied numeric field is sent as the empty
    string, present under its key, and not as 0, as [null] or left out. *)
Theorem body_determines_config w1 w2 :
  reachable w1 -> reachable w2 ->
  body (qrRequest (config w1)) !! lit "size" <> Some JNull ->
  body (qrRequest (config w1)) !! lit "margin" <> Some JNull ->
  (body (qrRequest (config w1)) = body (qrRequest (config w2)) ->
     config w1 = config w2) /\
  (forall k, k = lit "size" \/ k = lit "margin" ->
     (body (qrRequest (config w1)) !! k = Some (JString [])
      <-> config w1 !! k = Some emptySentinel)).
Proof.
  intros Hw1 Hw2.
  destruct (configTyped_reachable w1 Hw1) as [Hty1 _].
  destruct (configTyped_reachable w2 Hw2) as [Hty2 _].
  change (body (qrRequest (config w1))) with (JSON_stringify (config w1)).
  change (body (qrRequest (config w2))) with (JSON_stringify (config w2)).
  unfold JSON_stringify. rewrite !lookup_fmap. intros Hsize Hmargin.
  destruct Hty1 as (Hdom1 & Ht1 & Hs1 & Hc1 & Hb1 & Hm1).
  destruct Hty2 as (Hdom2 & Ht2 & Hs2 & Hc2 & Hb2 & Hm2).
  split.
  - intros Heq. apply map_eq. intros k.
    apply (f_equal (fun m => m !! k)) in Heq. rewrite !lookup_fmap in Heq.
    destruct (decide (k ∈ configKeys)) as [Hin|Hout].
    + unfold configKeys in Hin.
      rewrite !elem_of_union, !elem_of_singleton in Hin.
      destruct Hin as [[[[->| ->]| ->]| ->]| ->];
        auto using serialized_string_inj, serialized_number_inj.
    + rewrite <- Hdom1 in Hout. apply not_elem_of_dom in Hout.
      rewrite Hout in *. by destruct (config w2 !! k).
  - intros k Hk.
    assert (Hnum : isNumberOrEmpty (config w1 !! k)) by (by destruct Hk as [->| ->]).
    rewrite lookup_fmap.
    destruct Hnum as [Hv|(n & Hv & Hn)]; rewrite Hv; simpl; [by split|].
    destruct n; [done|..]; by split.
Qed.

Lemma body_determines_config_witness :
  let w1 := step (Change Size []) initialWorld in
  let w2 := step (Change Margin (lit "0")) initialWorld in
  (body (qrRequest (config w1)) = body (qrRequest (config w2)) ->
     config w1 = config w2) /\
  (forall k, k = lit "size" \/ k = lit "margin" ->
     (body (qrRequest (config w1)) !! k = Some (JString [])
      <-> config w1 !! k = Some emptySentinel)).
Proof.
  apply (body_determines_config
           (step (Change Size []) initialWorld)
           (step (Change Margin (lit "0")) initialWorld)).
  - exists [Change Size []]. vm_compute. reflexivity.
  - exists [Change Margin (lit "0")]. vm_compute. reflexivity.
  - vm_compute. discriminate.
  - vm_compute. discriminate.
Defined.

End Payload.

Section TolerantNumbers.

Implicit Types (w : World) (c : Control) (lead rest ds : jsstring).







End TolerantNumbers.

Section FormContents.

Implicit Types (w : World) (e : Event) (text : jsstring).

(** X14. Only edits change the form: submitting, a response, a failure
    and unmounting all leave [config] as it is, so the form is never reset
    or normalised behind the user's back. *)
Theorem only_edits_change_config w e :
  (forall c v, e <> Change c v) -> config (step e w) = config w.
Proof.
  intros He. destruct (mounted w) eqn:Hm.
  - destruct e as [c v| |o|].
    + by destruct (He c v).
    + destruct (config w !! lit "text") as [[text|?]|] eqn:Et.
      * destruct (decide (trim text = [])) as [Ht|Ht].
        -- by rewrite (step_submit_invalid' w text Hm Et Ht).
        -- by rewrite (step_submit_valid' w text Hm Et Ht).
      * by rewrite (step_submit_untyped' w Hm) by (intros ?; congruence).
      * by rewrite (step_submit_untyped' w Hm) by (intros ?; congruence).
    + destruct (tryBody o) as [err|blob] eqn:Eo.
      * by rewrite (step_settle_failure' w o err Hm Eo).
      * by rewrite (step_settle_success' w o blob Hm Eo).
    + by rewrite step_unmount.
  - destruct e as [c v| |o|].
    + by destruct (He c v).
    + rewrite step_unfold. simpl dispatch. unfold exec at 2, generateQRCode.
      destruct (config w !! lit "text") as [[text|?]|]; simpl;
        try (by rewrite exec_runEffects_unmounted).
      destruct (negb (truthy (trim text))); unfold bind, setStatus, fetch, record;
        rewrite Hm; simpl; by rewrite exec_runEffects_unmounted.
    + rewrite step_settle_unmounted' by done. by destruct (tryBody o).
    + by rewrite step_unmount.
Qed.

Lemma only_edits_change_config_witness :
  config (step (Settle (Responded true (inr []))) (step Submit initialWorld))
  = config (step Submit initialWorld).
Proof.
  apply (only_edits_change_config (step Submit initialWorld)
           (Settle (Responded true (inr [])))).
  intros c v. discriminate.
Defined.

(** X15. Validation trims only to decide: the request of a valid submit
    carries the text exactly as typed, surrounding white space included,
    and every other member is the serialised property of [config]. *)
Theorem request_carries_text_as_typed w text :
  mounted w = true ->
  config w !! lit "text" = Some (VString text) -> trim text <> [] ->
  exists r,
    requests (step Submit w) = requests w ++ [r] /\
    body r !! lit "text" = Some (JString text) /\
    forall k, body r !! k = serializeProperty <$> config w !! k.
Proof.
  intros Hm Ht He. exists (qrRequest (config w)).
  split; [by apply requests_submit_valid with text|].
  change (body (qrRequest (config w))) with (JSON_stringify (config w)).
  unfold JSON_stringify. split.
  - by rewrite lookup_fmap, Ht.
  - intros k. by rewrite lookup_fmap.
Qed.

Lemma request_carries_text_as_typed_witness :
  let w := step (Change Content (lit "  hello ")) initialWorld in
  exists r,
    requests (step Submit w) = requests w ++ [r] /\
    body r !! lit "text" = Some (JString (lit "  hello ")) /\
    forall k, body r !! k = serializeProperty <$> config w !! k.
Proof.
  apply (request_carries_text_as_typed
           (step (Change Content (lit "  hello ")) initialWorld) (lit "  hello ")).
  - reflexivity.
  - vm_compute. reflexivity.
  - vm_compute. discriminate.
Defined.

End FormContents.

Section NumberInput.

(** What the number input keeps and what it blanks: plain, negative,
    fractional and exponent numerals are kept; text, a unit, a leading
    "+", white space, a bare point and numerals too large for a double
    are replaced by the empty string. *)
Example number_input_sanitising :
  map numberInputDelivers
      [lit "300"; lit "-4"; lit "1.5"; lit ".5"; lit "2e3"; lit "1E-2"; lit ""]
    = [true; true; true; true; true; true; true] /\
  map numberInputDelivers
      [lit "abc"; lit "12px"; lit "+5"; lit " 1"; lit "1."; lit "1e"; lit "1e400"]
    = [false; false; false; false; false; false; false] /\
  numberInputDelivers (decimal (10 ^ 309)) = false /\
  numberInputDelivers (lit "9007199254740993") = true.
Proof. vm_compute. by repeat split. Qed.

End NumberInput.
